(** * Division by invariant multiplication: [z3/inv.py]

    The script asks an SMT solver for a pair (multiplier, shift) such that
    [x / d] equals [(a * x) >> s] on every [bits]-wide [x], and re-checks a
    pair by asking the solver for a counterexample.

    Definitions come first.
    - [Z3]: the fragment of the z3 Python API used by the script, as a small
      term language with its bit-vector semantics (values as [Z] with the
      wrap-around written out), and the solver as a function from the
      asserted constraints to an answer.
    - [Enum]: a solver that decides by enumerating all assignments; it is
      sound for both answers and is used to run the script on small widths.
    - [Inv]: the functions of [inv.py], parametrised by the solver.
    - [Scenario], [Samples]: the concrete candidates and models of the
      examples.

    The lemmas follow: the term language ([Z3Facts]), soundness of the
    enumerating solver ([EnumFacts]), the queries read as arithmetic
    ([Queries]), the functions of the script ([ScriptFacts]), the ranges
    of the parallel search ([Partition], [Coordinator]), the outcomes of
    search and verification ([Outcomes]), the examples for divisor 9 on
    8 bits and the two formulators ([Scenarios]), and the [__main__]
    block ([MainBlock]).  A second part reads the queries for arbitrary
    integer arguments ([Wrapped]) and states what the verdicts of the
    verifier ([Verifier]), the results of the search ([Search]), the fast
    path ([FastPath]) and the main block ([MainOutcomes]) guarantee. *)

From Stdlib Require Import ZArith List String Bool Lia Zdivisibility Sorted.
Import ListNotations.
Local Open Scope Z_scope.

(* ================================================================== *)
(** ** The z3 API fragment *)
(* ================================================================== *)

Module Z3.

(** A constant is identified by its name and the width of its sort. *)
Definition Decl : Type := string * Z.

(** Bit-vector terms.  A Python integer that meets a bit-vector term in an
    operator is coerced to a [BitVecVal] of the term's width; the
    definitions of [Inv] write that coercion out. *)
Inductive BitVecRef : Type :=
| BitVec (name : string) (bits : Z)
| BitVecVal (val : Z) (bits : Z)
| UDiv (a b : BitVecRef)
| BvMul (a b : BitVecRef)                 (* a * b *)
| LShR (a b : BitVecRef)
| ZeroExt (n : Z) (a : BitVecRef)
| Extract (high low : Z) (a : BitVecRef).

(** Formulas.  On bit-vectors the Python operators [>=] and [<] are the
    SIGNED comparisons; [ULE] and [ULT] are the unsigned ones. *)
Inductive BoolRef : Type :=
| BvEq (a b : BitVecRef)                  (* a == b *)
| BvNe (a b : BitVecRef)                  (* a != b *)
| BvSGE (a b : BitVecRef)                 (* a >= b *)
| BvSLT (a b : BitVecRef)                 (* a < b *)
| ULE (a b : BitVecRef)
| ULT (a b : BitVecRef)
| ForAll (vars : list Decl) (body : BoolRef).

(** A model interprets every constant. *)
Definition Model : Type := string -> Z -> Z.

Definition empty_model : Model := fun _ _ => 0.

Definition update (m : Model) (name : string) (bits v : Z) : Model :=
  fun name' bits' =>
    if (String.eqb name' name && (bits' =? bits))%bool then v else m name' bits'.

Fixpoint size (e : BitVecRef) : Z :=
  match e with
  | BitVec _ bits => bits
  | BitVecVal _ bits => bits
  | UDiv a _ => size a
  | BvMul a _ => size a
  | LShR a _ => size a
  | ZeroExt n a => n + size a
  | Extract high low _ => high - low + 1
  end.

(** The unsigned value of a term; always taken modulo [2 ^ size]. *)
Fixpoint eval (m : Model) (e : BitVecRef) : Z :=
  match e with
  | BitVec name bits => m name bits mod 2 ^ bits
  | BitVecVal val bits => val mod 2 ^ bits
  | UDiv a b =>
      if eval m b =? 0 then 2 ^ size a - 1 else eval m a / eval m b
  | BvMul a b => (eval m a * eval m b) mod 2 ^ size a
  | LShR a b => Z.shiftr (eval m a) (eval m b)
  | ZeroExt _ a => eval m a
  | Extract high low a => Z.shiftr (eval m a) low mod 2 ^ (high - low + 1)
  end.

(** Two's complement reading of an unsigned value. *)
Definition to_signed (bits v : Z) : Z :=
  if v <? 2 ^ (bits - 1) then v else v - 2 ^ bits.

Definition seval (m : Model) (e : BitVecRef) : Z :=
  to_signed (size e) (eval m e).

(** All values of a [bits]-wide sort. *)
Definition values (bits : Z) : list Z :=
  map Z.of_nat (seq 0 (Z.to_nat (2 ^ bits))).

(** Conjunction over a list that stops at the first failure. *)
Fixpoint all {A : Type} (p : A -> bool) (l : list A) : bool :=
  match l with
  | [] => true
  | a :: l' => if p a then all p l' else false
  end.

Fixpoint forall_consts (vars : list Decl) (k : Model -> bool) (m : Model)
  : bool :=
  match vars with
  | [] => k m
  | (name, bits) :: vars' =>
      all (fun v => forall_consts vars' k (update m name bits v))
          (values bits)
  end.

Fixpoint holds (m : Model) (f : BoolRef) : bool :=
  match f with
  | BvEq a b => eval m a =? eval m b
  | BvNe a b => negb (eval m a =? eval m b)
  | BvSGE a b => seval m b <=? seval m a
  | BvSLT a b => seval m a <? seval m b
  | ULE a b => eval m a <=? eval m b
  | ULT a b => eval m a <? eval m b
  | ForAll vars body => forall_consts vars (fun m' => holds m' body) m
  end.

(** [m[c].as_long()] for a constant [c]. *)
Definition as_long (m : Model) (c : BitVecRef) : Z := eval m c.

(** A solver is the list of its assertions, in the order of the [add]s. *)
Definition Solver : Type := list BoolRef.

Definition add (s : Solver) (c : BoolRef) : Solver := s ++ [c].

Definition satisfies (m : Model) (s : Solver) : bool := all (holds m) s.

(** The answer of [s.check()], with [s.model()] attached to [sat]. *)
Inductive CheckSatResult : Type :=
| sat (m : Model)
| unsat
| unknown.

(** What the script may rely on from the external solver: a [sat] answer
    comes with a model of the assertions, an [unsat] answer means there is
    none.  Nothing is assumed about when [unknown] is returned. *)
Definition sat_sound (check : Solver -> CheckSatResult) : Prop :=
  forall s m, check s = sat m -> satisfies m s = true.

Definition unsat_sound (check : Solver -> CheckSatResult) : Prop :=
  forall s, check s = unsat -> forall m, satisfies m s = false.

End Z3.

(* ================================================================== *)
(** ** A solver by enumeration *)
(* ================================================================== *)

Module Enum.
Import Z3.

Definition decl_eqb (d1 d2 : Decl) : bool :=
  (String.eqb (fst d1) (fst d2) && (snd d1 =? snd d2))%bool.

Definition declared (d : Decl) (ds : list Decl) : bool :=
  existsb (decl_eqb d) ds.

Fixpoint dedup (ds : list Decl) : list Decl :=
  match ds with
  | [] => []
  | d :: ds' => if declared d ds' then dedup ds' else d :: dedup ds'
  end.

Fixpoint consts (e : BitVecRef) : list Decl :=
  match e with
  | BitVec name bits => [(name, bits)]
  | BitVecVal _ _ => []
  | UDiv a b | BvMul a b | LShR a b => consts a ++ consts b
  | ZeroExt _ a | Extract _ _ a => consts a
  end.

Fixpoint free_consts (f : BoolRef) : list Decl :=
  match f with
  | BvEq a b | BvNe a b | BvSGE a b | BvSLT a b | ULE a b | ULT a b =>
      consts a ++ consts b
  | ForAll vars body =>
      filter (fun d => negb (declared d vars)) (free_consts body)
  end.

Definition solver_consts (s : Solver) : list Decl :=
  dedup (flat_map free_consts s).

(** Two models agree on a declaration when they give its constant the
    same value of its sort. *)
Definition agree_on (ds : list Decl) (m m' : Model) : Prop :=
  forall d, In d ds ->
    m (fst d) (snd d) mod 2 ^ snd d = m' (fst d) (snd d) mod 2 ^ snd d.

(** Every assignment of in-range values to the given constants. *)
Fixpoint models (ds : list Decl) : list Model :=
  match ds with
  | [] => [empty_model]
  | (name, bits) :: ds' =>
      flat_map (fun v => map (fun m => update m name bits v) (models ds'))
               (values bits)
  end.

(** Decides the assertions by trying every assignment of their free
    constants.  Sorts of non-positive width do not exist in z3; on them
    the answer is [unknown]. *)
Definition check (s : Solver) : CheckSatResult :=
  let ds := solver_consts s in
  if forallb (fun d => 0 <? snd d) ds then
    match find (fun m => satisfies m s) (models ds) with
    | Some m => sat m
    | None => unsat
    end
  else unknown.


(** Only the given models are tried: a solver that finds some models and
    otherwise runs out of resources. *)
Definition check_hints_only (hints : list Model) (s : Solver)
  : CheckSatResult :=
  match find (fun m => satisfies m s) hints with
  | Some m => sat m
  | None => unknown
  end.

(** A solver whose resources are always exhausted. *)
Definition always_unknown (s : Solver) : CheckSatResult := unknown.

End Enum.

(* ================================================================== *)
(** ** The script *)
(* ================================================================== *)

Module Inv.
Import Z3.

(** The dictionary [{'multiplier': ..., 'shift': ...}]. *)
Record Candidate : Type := { multiplier : Z; shift : Z }.

(** The lines the script prints. *)
Inductive Line : Type :=
| PrintModel (a s : Z)                    (* print(m), by its values *)
| PrintCorrect (sol : Candidate)          (* "correct:", sol *)
| PrintCounterExample (x e d : Z)         (* "Counter-example found: ..." *)
| PrintTimeout                            (* "Verification timeout" *)
| PrintHex (mult : Z)                     (* "{:x}".format(mult) *)
| PrintUnsat                              (* print(c) *)
| PrintUnknown.

Inductive PyExn : Type :=
| NameError | TypeError | ValueError | ZeroDivisionError.

Inductive Py (A : Type) : Type :=
| Return (a : A)
| Raise (e : PyExn).
Arguments Return {A} a.
Arguments Raise {A} e.

(** The state of the module-level name [solution]. *)
Inductive Binding : Type :=
| Unbound
| Bound (v : option Candidate).

(** [Extract(bits - 1, 0, LShR(ZeroExt(bits, a) * ZeroExt(bits, x),
    ZeroExt(bits, shift)))], which the script spells out twice. *)
Definition mul_shift (bits : Z) (a x shift' : BitVecRef) : BitVecRef :=
  Extract (bits - 1) 0
    (LShR (BvMul (ZeroExt bits a) (ZeroExt bits x)) (ZeroExt bits shift')).

Fixpoint filter_truthy (results : list (option Candidate)) : list Candidate :=
  match results with
  | [] => []
  | Some c :: rest => c :: filter_truthy rest
  | None :: rest => filter_truthy rest
  end.

(** The [ranges] that [find_parallel] builds for a given [cpus]; the
    division by [part_num] is guarded by its caller. *)
Definition search_ranges (div bits cpus : Z) : list (Z * Z * (Z * Z)) :=
  let part_num := 1024 * cpus in
  let max_value := 2 ^ bits in
  let part_size := max_value / part_num in
  map (fun i : nat =>
         let i := Z.of_nat i in
         let start := i * part_size in
         let end' := if i <? part_num - 1 then (i + 1) * part_size
                     else max_value in
         (div, bits, (start, end')))
      (seq 0 (Z.to_nat part_num)).

(** The two assertions of [find_constants] on [shift]; the integers [0]
    and [2*bits] become [bits]-wide values. *)
Definition shift_bounds (bits : Z) : Solver :=
  let s : Solver := [] in
  let shift' := BitVec "s" bits in
  let s := add s (BvSGE shift' (BitVecVal 0 bits)) in
  add s (BvSLT shift' (BitVecVal (2 * bits) bits)).

(** The assertions [find_constants] has made when it calls [s.check()]. *)
Definition formula (div bits : Z) (range : option (Z * Z)) : Solver :=
  let x := BitVec "x" bits in
  let a := BitVec "a" bits in
  let shift' := BitVec "s" bits in
  let div := BitVecVal div bits in
  let equality := BvEq (UDiv x div) (mul_shift bits a x shift') in
  let s := shift_bounds bits in
  let s :=
    match range with
    | Some (min_a, max_a) =>
        let s := add s (ULE (BitVecVal min_a bits) a) in
        add s (ULT a (BitVecVal max_a bits))
    | None => s
    end in
  add s (ForAll [("x"%string, bits)] equality).

(** The assertion [check_solution] has made when it calls [s.check()];
    [solution] is the dictionary bound to the module-level name. *)
Definition negated_equation (solution : Candidate) (divisor bits : Z)
  : Solver :=
  let s : Solver := [] in
  let x := BitVec "x" bits in
  let div := BitVecVal divisor bits in
  let a := BitVecVal (multiplier solution) bits in
  let shift' := BitVecVal (shift solution) bits in
  add s (BvNe (UDiv x div) (mul_shift bits a x shift')).

Section Script.

(** [s.check()] of the external solver, and [cpu_count()]. *)
Variable check : Solver -> CheckSatResult.
Variable cpu_count : Z.

Definition find_constants (div bits : Z) (range : option (Z * Z))
  : option Candidate * list Line :=
  let a := BitVec "a" bits in
  let shift' := BitVec "s" bits in
  let s := formula div bits range in
  match check s with
  | sat m =>
      (Some {| multiplier := as_long m a; shift := as_long m shift' |},
       [PrintModel (as_long m a) (as_long m shift')])
  | _ => (None, [])
  end.

Definition find_constants_2 (args : Z * Z * (Z * Z))
  : option Candidate * list Line :=
  let '(div, bits, range) := args in
  find_constants div bits (Some range).

(** The formula is built from the module-level [solution]; the argument
    [sol] is used for the printed lines only. *)
Definition check_solution (solution : Binding)
  (sol : Candidate) (divisor bits : Z) : Py (bool * list Line) :=
  match solution with
  | Unbound => Raise NameError
  | Bound None => Raise TypeError
  | Bound (Some solution) =>
      let x := BitVec "x" bits in
      let s := negated_equation solution divisor bits in
      match check s with
      | unsat => Return (true, [PrintCorrect sol])
      | sat m =>
          if shift sol <? 0 then Raise ValueError
          else if divisor =? 0 then Raise ZeroDivisionError
          else
            let d := Z.shiftr (Z.land (as_long m x * multiplier sol)
                                      (Z.shiftl 1 bits - 1))
                              (shift sol) in
            let e := as_long m x / divisor in
            Return (false, [PrintCounterExample (as_long m x) e d])
      | unknown => Return (false, [PrintTimeout])
      end
  end.

(** The workers print from their own processes; only what [pool.map]
    returns is kept. *)
Definition find_parallel (div bits : Z) (cpus : option Z)
  : Py (list Candidate) :=
  let cpus := match cpus with None => cpu_count | Some c => c end in
  let part_num := 1024 * cpus in
  if part_num =? 0 then Raise ZeroDivisionError
  else
    let ranges := search_ranges div bits cpus in
    if cpus <? 1 then Raise ValueError
    else
      let results := map (fun r => fst (find_constants_2 r)) ranges in
      Return (filter_truthy results).

(** [constt / divisor] is Python's true division; the quotient is the
    integer [0x1234567] exactly, which z3 then reads back as an integer. *)
Definition simple (div bits : Z) : Py (option Candidate * list Line) :=
  let m := BitVec "m" bits in
  let s : Solver := [] in
  let divisor := div in
  let constt := 19088743 * divisor in
  if divisor =? 0 then Raise ZeroDivisionError
  else
    let s := add s (BvEq (BvMul (BitVecVal constt bits) m)
                         (BitVecVal (constt / divisor) bits)) in
    match check s with
    | sat model =>
        let mult := as_long model m in
        Return (Some {| multiplier := mult; shift := 0 |}, [PrintHex mult])
    | unsat => Return (None, [PrintUnsat])
    | unknown => Return (None, [PrintUnknown])
    end.

(** The [__main__] block: [solution] is bound at module level and then
    passed as [sol]. *)
Definition main : Py (list Line) :=
  let value := 9 in
  let bits := 32 in
  let '(solution, out) := find_constants value bits None in
  match solution with
  | Some sol =>
      match check_solution (Bound solution) sol value bits with
      | Return (_, out') => Return (out ++ out')
      | Raise e => Raise e
      end
  | None => Return out
  end.

End Script.

(** The multiply-and-shift that is to replace the division,
    [truncate_low_W((a * x) >> s)]: the product in [2 * bits] bits,
    shifted, then cut to [bits] bits. *)
Definition computed (bits a s x : Z) : Z :=
  Z.shiftr ((a * x) mod 2 ^ (2 * bits)) s mod 2 ^ bits.

Definition in_range (r : Z * Z) (v : Z) : Prop := fst r <= v < snd r.

Definition range_of (args : Z * Z * (Z * Z)) : Z * Z := snd args.

End Inv.

(* ================================================================== *)
(** ** Concrete candidates and models used in the scenarios *)
(* ================================================================== *)

Module Scenario.
Import Z3 Inv.

Definition cand (a s : Z) : Candidate := {| multiplier := a; shift := s |}.


(** The model [a = 683, s = 11] over 10-bit constants. *)
Definition a683_s11 : Model :=
  update (update empty_model "a" 10 683) "s" 10 11.

(** The model [s = 0] over 4-bit constants. *)
Definition s_is_0 : Model := update empty_model "s" 4 0.

(** Whether a call of [check_solution] ended in "correct". *)
Definition accepted (r : Py (bool * list Line)) : bool :=
  match r with
  | Return (b, _) => b
  | Raise _ => false
  end.

End Scenario.

(* ================================================================== *)
(** ** Further models used in the examples *)
(* ================================================================== *)

Module Samples.
Import Z3.

(** The model [a = 11, s = 5] over 5-bit constants. *)
Definition a11_s5 : Model :=
  update (update empty_model "a" 5 11) "s" 5 5.

(** Whether an assertion is quantified: the last assertion of a search
    query is, the assertion of the verifier is not. *)
Definition quantified (f : BoolRef) : bool :=
  match f with
  | ForAll _ _ => true
  | _ => false
  end.

(** A solver that decides the queries with a quantified assertion by
    enumeration and runs out of resources on all others. *)
Definition unknown_unless_quantified (s : Solver) : CheckSatResult :=
  if existsb quantified s then Enum.check s else unknown.

End Samples.

(* ================================================================== *)
(** ** Facts about the term language *)
(* ================================================================== *)

Module Z3Facts.
Import Z3.

Lemma all_true_iff {A : Type} (p : A -> bool) (l : list A) :
  all p l = true <-> forall a, In a l -> p a = true.
Proof.
  induction l as [|a l IH]; simpl.
  - split; [intros _ b []|reflexivity].
  - destruct (p a) eqn:E.
    + rewrite IH. split.
      * intros H b [<-|Hb]; auto.
      * intros H b Hb. apply H. now right.
    + split; [discriminate|].
      intros H. rewrite <- E. apply H. now left.
Qed.

Lemma all_app {A : Type} (p : A -> bool) (l1 l2 : list A) :
  all p (l1 ++ l2) = true <-> all p l1 = true /\ all p l2 = true.
Proof.
  rewrite !all_true_iff. split.
  - intros H. split; intros a Ha; apply H, in_or_app; auto.
  - intros [H1 H2] a Ha. apply in_app_or in Ha as [Ha|Ha]; auto.
Qed.

Lemma pow2_pos (bits : Z) : 0 <= bits -> 0 < 2 ^ bits.
Proof. intros. apply Z.pow_pos_nonneg; lia. Qed.

Lemma In_values (bits v : Z) :
  In v (values bits) <-> 0 <= v < 2 ^ bits.
Proof.
  unfold values. rewrite in_map_iff. split.
  - intros [n [<- Hn]]. apply in_seq in Hn. lia.
  - intros Hv. exists (Z.to_nat v). split; [lia|].
    apply in_seq. lia.
Qed.

Lemma update_same (m : Model) n b v : update m n b v n b = v.
Proof. unfold update. now rewrite String.eqb_refl, Z.eqb_refl. Qed.

Lemma update_other (m : Model) n b v n' b' :
  (n', b') <> (n, b) -> update m n b v n' b' = m n' b'.
Proof.
  intros Hne. unfold update.
  destruct (String.eqb n' n) eqn:En; simpl; [|reflexivity].
  destruct (b' =? b) eqn:Eb; [|reflexivity].
  apply String.eqb_eq in En. apply Z.eqb_eq in Eb. congruence.
Qed.

(** A quantifier over one constant ranges over all values of its sort. *)
Lemma holds_ForAll_one (m : Model) n b body :
  holds m (ForAll [(n, b)] body) = true <->
  forall v, 0 <= v < 2 ^ b -> holds (update m n b v) body = true.
Proof.
  simpl. rewrite all_true_iff. split; intros H v Hv; apply H.
  - now apply In_values.
  - now apply In_values in Hv.
Qed.

Lemma eval_BitVec_range (m : Model) n b :
  0 <= b -> 0 <= eval m (BitVec n b) < 2 ^ b.
Proof. intros. simpl. apply Z.mod_pos_bound. now apply pow2_pos. Qed.

Lemma satisfies_add (m : Model) (s : Solver) c :
  satisfies m (add s c) = true <->
  satisfies m s = true /\ holds m c = true.
Proof.
  unfold satisfies, add. rewrite all_app. simpl.
  destruct (holds m c); intuition congruence.
Qed.

Lemma satisfies_nil (m : Model) : satisfies m [] = true.
Proof. reflexivity. Qed.

End Z3Facts.

(* ================================================================== *)
(** ** The enumerating solver is sound *)
(* ================================================================== *)

Module EnumFacts.
Import Z3 Z3Facts Enum.

Lemma agree_on_app ds1 ds2 m m' :
  agree_on (ds1 ++ ds2) m m' -> agree_on ds1 m m' /\ agree_on ds2 m m'.
Proof.
  intros H. split; intros d Hd; apply H, in_or_app; auto.
Qed.

Lemma decl_eqb_eq (d1 d2 : Decl) : decl_eqb d1 d2 = true <-> d1 = d2.
Proof.
  destruct d1 as [n1 b1], d2 as [n2 b2]. unfold decl_eqb. simpl.
  rewrite andb_true_iff, String.eqb_eq, Z.eqb_eq.
  split; [intros [-> ->]; reflexivity | intros [= -> ->]; auto].
Qed.

Lemma declared_In (d : Decl) ds : declared d ds = true <-> In d ds.
Proof.
  unfold declared. rewrite existsb_exists. split.
  - intros [d' [Hin Heq]]. apply decl_eqb_eq in Heq. now subst.
  - intros Hin. exists d. split; [assumption | now apply decl_eqb_eq].
Qed.

Lemma In_dedup (d : Decl) ds : In d (dedup ds) <-> In d ds.
Proof.
  induction ds as [|d0 ds IH]; simpl; [tauto|].
  destruct (declared d0 ds) eqn:E; simpl; rewrite IH.
  - apply declared_In in E. split; [auto|]. intros [<-|H]; auto.
  - tauto.
Qed.

Lemma eval_agree (e : BitVecRef) (m m' : Model) :
  agree_on (consts e) m m' -> eval m e = eval m' e.
Proof.
  induction e; simpl; intros H;
    try (apply agree_on_app in H as [H1 H2];
         rewrite (IHe1 H1), (IHe2 H2); reflexivity);
    try (rewrite (IHe H); reflexivity).
  - apply (H (name, bits)). now left.
  - reflexivity.
Qed.

Lemma agree_on_update ds n b v m m' :
  agree_on (filter (fun d => negb (declared d [(n, b)])) ds) m m' ->
  agree_on ds (update m n b v) (update m' n b v).
Proof.
  intros H [n' b'] Hd. simpl.
  destruct (decl_eqb (n', b') (n, b)) eqn:E.
  - apply decl_eqb_eq in E. injection E as -> ->.
    now rewrite !update_same.
  - assert (Hne : (n', b') <> (n, b)).
    { intros Heq. apply decl_eqb_eq in Heq. congruence. }
    rewrite !update_other by assumption.
    apply (H (n', b')). apply filter_In. split; [assumption|].
    unfold declared. simpl. now rewrite E.
Qed.

Lemma forall_consts_agree (body_consts : list Decl) (k : Model -> bool) :
  (forall m m', agree_on body_consts m m' -> k m = k m') ->
  forall vars m m',
    agree_on (filter (fun d => negb (declared d vars)) body_consts) m m' ->
    forall_consts vars k m = forall_consts vars k m'.
Proof.
  intros Hk vars. induction vars as [|[n b] vars IH]; intros m m' H; simpl.
  - apply Hk. intros d Hd. apply H. apply filter_In. now split.
  - assert (Hpt : forall v,
        forall_consts vars k (update m n b v) =
        forall_consts vars k (update m' n b v)).
    { intros v. apply IH. apply agree_on_update.
      intros d Hd. apply filter_In in Hd as [Hd Hn].
      apply filter_In in Hd as [Hd Hv].
      apply H. apply filter_In. split; [assumption|].
      unfold declared in *. simpl in *.
      rewrite orb_false_r in Hn.
      apply negb_true_iff in Hn, Hv. apply negb_true_iff.
      now rewrite Hn, Hv. }
    induction (values b) as [|v vs IHvs]; simpl; [reflexivity|].
    now rewrite Hpt, IHvs.
Qed.

Lemma holds_agree (f : BoolRef) :
  forall m m', agree_on (free_consts f) m m' -> holds m f = holds m' f.
Proof.
  induction f; intros m m' H; simpl in *;
    try (apply agree_on_app in H as [H1 H2]; unfold seval;
         rewrite (eval_agree a m m' H1), (eval_agree b m m' H2);
         reflexivity).
  now apply forall_consts_agree with (body_consts := free_consts f).
Qed.

Lemma satisfies_agree (s : Solver) m m' :
  agree_on (solver_consts s) m m' -> satisfies m s = satisfies m' s.
Proof.
  unfold solver_consts, satisfies. intros H.
  assert (H' : agree_on (flat_map free_consts s) m m').
  { intros d Hd. apply H. now apply In_dedup. }
  clear H. induction s as [|c s IH]; simpl; [reflexivity|].
  simpl in H'. apply agree_on_app in H' as [Hc Hs].
  now rewrite (holds_agree c m m' Hc), (IH Hs).
Qed.

(** The enumeration reaches every model, up to agreement. *)
Lemma models_complete (ds : list Decl) (m : Model) :
  (forall d, In d ds -> 0 < snd d) ->
  exists m', In m' (models ds) /\ agree_on ds m m'.
Proof.
  induction ds as [|[n b] ds IH]; intros Hpos.
  - exists empty_model. split; [now left | intros d []].
  - destruct IH as [m0 [Hin Hag]].
    { intros d Hd. apply Hpos. now right. }
    assert (Hb : 0 < b) by (apply (Hpos (n, b)); now left).
    exists (update m0 n b (m n b mod 2 ^ b)). split.
    + simpl. apply in_flat_map. exists (m n b mod 2 ^ b). split.
      * apply In_values. apply Z.mod_pos_bound, pow2_pos. lia.
      * apply in_map_iff. now exists m0.
    + intros [n' b'] Hd. simpl.
      destruct (decl_eqb (n', b') (n, b)) eqn:E.
      * apply decl_eqb_eq in E. injection E as -> ->.
        rewrite update_same. now rewrite Z.mod_mod by (pose proof (pow2_pos b); lia).
      * assert (Hne : (n', b') <> (n, b)).
        { intros Heq. apply decl_eqb_eq in Heq. congruence. }
        rewrite update_other by assumption.
        destruct Hd as [Heq|Hd]; [congruence|].
        apply (Hag (n', b') Hd).
Qed.

Lemma check_sat_sound : sat_sound check.
Proof.
  intros s m. unfold check.
  destruct (forallb _ _); [|discriminate].
  destruct (find _ _) as [m0|] eqn:E; [|discriminate].
  intros [= <-]. now apply find_some in E.
Qed.

Lemma check_unsat_sound : unsat_sound check.
Proof.
  intros s. unfold check.
  destruct (forallb _ _) eqn:Epos; [|discriminate].
  destruct (find _ _) as [m0|] eqn:E; [discriminate|].
  intros _ m.
  destruct (models_complete (solver_consts s) m) as [m' [Hin Hag]].
  { intros d Hd. rewrite forallb_forall in Epos.
    apply Epos in Hd. lia. }
  rewrite (satisfies_agree s m m' Hag).
  apply (find_none _ _ E m' Hin).
Qed.



Lemma check_hints_only_sat_sound hints : sat_sound (check_hints_only hints).
Proof.
  intros s m. unfold check_hints_only.
  destruct (find _ hints) as [m0|] eqn:E; [|discriminate].
  intros [= <-]. now apply find_some in E.
Qed.

Lemma always_unknown_sat_sound : sat_sound always_unknown.
Proof. intros s m. discriminate. Qed.

Lemma always_unknown_unsat_sound : unsat_sound always_unknown.
Proof. intros s. discriminate. Qed.

End EnumFacts.

(* ================================================================== *)
(** ** The queries of the script, read as arithmetic *)
(* ================================================================== *)

Module Queries.
Import Z3 Z3Facts Inv.

Lemma eval_mul_shift (m : Model) bits a x sh :
  size a = bits ->
  eval m (mul_shift bits a x sh) =
  computed bits (eval m a) (eval m sh) (eval m x).
Proof.
  intros Hsize. unfold mul_shift, computed. simpl.
  rewrite Z.shiftr_0_r, Hsize.
  replace (bits - 1 - 0 + 1) with bits by lia.
  replace (bits + bits) with (2 * bits) by lia.
  reflexivity.
Qed.

Lemma mod_small_id bits v : 0 <= v < 2 ^ bits -> v mod 2 ^ bits = v.
Proof. intros. now apply Z.mod_small. Qed.

(** The assertion of [check_solution] says that [x] is a counterexample
    for the dictionary bound to [solution]. *)
Lemma negated_equation_reads (m : Model) (c : Candidate) divisor bits :
  0 < divisor < 2 ^ bits ->
  0 <= multiplier c < 2 ^ bits ->
  0 <= shift c < 2 ^ bits ->
  satisfies m (negated_equation c divisor bits) =
  negb (as_long m (BitVec "x" bits) / divisor =?
        computed bits (multiplier c) (shift c) (as_long m (BitVec "x" bits))).
Proof.
  intros Hd Ha Hs. unfold negated_equation, satisfies, add, as_long.
  cbn [app all holds]. rewrite eval_mul_shift by reflexivity.
  cbn [eval size].
  rewrite (mod_small_id bits divisor), (mod_small_id bits (multiplier c)),
    (mod_small_id bits (shift c)) by lia.
  replace (divisor =? 0) with false by (symmetry; apply Z.eqb_neq; lia).
  now destruct (negb _).
Qed.

Lemma two_bits_lt_pow (bits : Z) : 5 <= bits -> 2 * bits < 2 ^ (bits - 1).
Proof.
  intros H. replace bits with (5 + (bits - 5)) by lia.
  assert (Hk : 0 <= bits - 5) by lia.
  generalize dependent (bits - 5). intros k Hk.
  pattern k. apply natlike_ind; [reflexivity| |assumption].
  intros j Hj IH.
  replace (5 + Z.succ j - 1) with (Z.succ (5 + j - 1)) by lia.
  rewrite Z.pow_succ_r by lia. lia.
Qed.

Lemma to_signed_zero bits : 0 < bits -> to_signed bits 0 = 0.
Proof.
  intros H. unfold to_signed.
  pose proof (pow2_pos (bits - 1)).
  destruct (0 <? 2 ^ (bits - 1)) eqn:E; [reflexivity|].
  apply Z.ltb_ge in E. lia.
Qed.

Lemma to_signed_le bits v : 0 <= bits -> to_signed bits v <= v.
Proof.
  intros H. unfold to_signed. pose proof (pow2_pos bits H).
  destruct (v <? _); lia.
Qed.

(** What the two assertions on [shift] say about its value. *)
Lemma shift_bounds_reads (m : Model) bits :
  0 < bits ->
  satisfies m (shift_bounds bits) =
  ((0 <=? to_signed bits (as_long m (BitVec "s" bits))) &&
   (to_signed bits (as_long m (BitVec "s" bits)) <?
    to_signed bits ((2 * bits) mod 2 ^ bits)))%bool.
Proof.
  intros Hb. unfold shift_bounds, satisfies, add, as_long.
  cbn [app all holds]. unfold seval. cbn [size eval].
  change (0 mod 2 ^ bits) with 0.
  rewrite to_signed_zero by assumption.
  destruct (0 <=? _); [|reflexivity].
  now destruct (_ <? _).
Qed.

Lemma shift_bounds_inside (m : Model) bits :
  0 < bits ->
  satisfies m (shift_bounds bits) = true ->
  0 <= as_long m (BitVec "s" bits) < 2 * bits.
Proof.
  intros Hb. rewrite shift_bounds_reads by assumption.
  rewrite andb_true_iff, Z.leb_le, Z.ltb_lt.
  pose proof (eval_BitVec_range m "s" bits ltac:(lia)) as Hv.
  unfold as_long. set (v := eval m (BitVec "s" bits)) in *.
  intros [H0 H1].
  assert (Hsv : to_signed bits v = v).
  { unfold to_signed in *. destruct (v <? 2 ^ (bits - 1)); lia. }
  pose proof (to_signed_le bits ((2 * bits) mod 2 ^ bits) ltac:(lia)).
  pose proof (Z.mod_le (2 * bits) (2 ^ bits) ltac:(lia)
                (pow2_pos bits ltac:(lia))).
  lia.
Qed.

Lemma shift_bounds_exact (m : Model) bits :
  5 <= bits ->
  satisfies m (shift_bounds bits) = true <->
  0 <= as_long m (BitVec "s" bits) < 2 * bits.
Proof.
  intros Hb. split; [apply shift_bounds_inside; lia|].
  rewrite shift_bounds_reads by lia.
  pose proof (two_bits_lt_pow bits Hb) as Hlt.
  assert (Hpow : 2 ^ bits = 2 * 2 ^ (bits - 1)).
  { replace bits with (Z.succ (bits - 1)) at 1 by lia.
    apply Z.pow_succ_r. lia. }
  intros Hv. rewrite (Z.mod_small (2 * bits)) by lia.
  unfold to_signed.
  replace (2 * bits <? 2 ^ (bits - 1)) with true
    by (symmetry; apply Z.ltb_lt; lia).
  replace (as_long m (BitVec "s" bits) <? 2 ^ (bits - 1)) with true
    by (symmetry; apply Z.ltb_lt; lia).
  apply andb_true_iff. split; [apply Z.leb_le | apply Z.ltb_lt]; lia.
Qed.

(** Below five bits [2*bits] does not fit the signed range of the sort,
    and the two assertions contradict each other. *)
Lemma shift_bounds_unsat_small (m : Model) bits :
  0 < bits < 5 -> satisfies m (shift_bounds bits) = false.
Proof.
  intros Hb. rewrite shift_bounds_reads by lia.
  pose proof (eval_BitVec_range m "s" bits ltac:(lia)) as Hv.
  unfold as_long. set (v := eval m (BitVec "s" bits)) in *.
  clearbody v.
  assert (Hc : bits = 1 \/ bits = 2 \/ bits = 3 \/ bits = 4) by lia.
  apply andb_false_iff.
  destruct Hc as [-> | [-> | [-> | ->]]]; unfold to_signed; cbn in *;
    destruct (v <? _) eqn:E;
    try apply Z.ltb_lt in E; try apply Z.ltb_ge in E;
    solve [ right; apply Z.ltb_ge; lia | left; apply Z.leb_gt; lia ].
Qed.

End Queries.

(* ================================================================== *)
(** ** Facts about the functions of the script *)
(* ================================================================== *)

Module ScriptFacts.
Import Z3 Z3Facts Inv Queries.

Lemma two_bits_le_pow (bits : Z) : 0 < bits -> 2 * bits <= 2 ^ bits.
Proof.
  intros H. replace bits with (1 + (bits - 1)) by lia.
  assert (Hk : 0 <= bits - 1) by lia.
  generalize dependent (bits - 1). intros k Hk.
  pattern k. apply natlike_ind; [cbn; lia| |assumption].
  intros j Hj IH.
  replace (1 + Z.succ j) with (Z.succ (1 + j)) by lia.
  rewrite Z.pow_succ_r by lia. lia.
Qed.

Lemma In_filter_truthy (c : Candidate) results :
  In c (filter_truthy results) <-> In (Some c) results.
Proof.
  induction results as [|[c0|] rest IH]; simpl.
  - tauto.
  - rewrite IH. split; intros [H|H]; auto; [left|left]; congruence.
  - rewrite IH. split; [auto|]. intros [H|H]; [discriminate|assumption].
Qed.


(** The [i]-th range, as the loop computes it. *)
Lemma nth_error_search_ranges div bits cpus i r :
  nth_error (map range_of (search_ranges div bits cpus)) i = Some r ->
  Z.of_nat i < 1024 * cpus /\
  fst r = Z.of_nat i * (2 ^ bits / (1024 * cpus)) /\
  snd r = if Z.of_nat i <? 1024 * cpus - 1
          then (Z.of_nat i + 1) * (2 ^ bits / (1024 * cpus))
          else 2 ^ bits.
Proof.
  unfold search_ranges. rewrite map_map, nth_error_map, nth_error_seq.
  destruct (Nat.ltb i _) eqn:E; [|discriminate].
  apply Nat.ltb_lt in E. unfold range_of. cbn [option_map snd Nat.add].
  intros [= <-]. cbn [fst snd].
  split; [lia|split; reflexivity].
Qed.

Lemma nth_error_search_ranges_exists div bits cpus i :
  0 <= Z.of_nat i < 1024 * cpus ->
  exists r, nth_error (map range_of (search_ranges div bits cpus)) i = Some r.
Proof.
  intros H. unfold search_ranges.
  rewrite map_map, nth_error_map, nth_error_seq.
  replace (Nat.ltb i _) with true by (symmetry; apply Nat.ltb_lt; lia).
  eexists. reflexivity.
Qed.

Section WithSolver.

Variable check : Solver -> CheckSatResult.

(** "correct" is reached through an [unsat] answer only. *)
Lemma check_solution_true solution sol divisor bits out :
  check_solution check solution sol divisor bits = Return (true, out) ->
  exists c, solution = Bound (Some c) /\
            check (negated_equation c divisor bits) = unsat /\
            out = [PrintCorrect sol].
Proof.
  unfold check_solution. destruct solution as [|[c|]]; try discriminate.
  destruct (check _) eqn:E.
  - destruct (shift sol <? 0); [discriminate|].
    destruct (divisor =? 0); discriminate.
  - intros [= <-]. now exists c.
  - discriminate.
Qed.

(** A counterexample line is reached through a [sat] answer only, and its
    numbers are computed from the model and from [sol]. *)
Lemma check_solution_counterexample solution sol divisor bits b x e d :
  check_solution check solution sol divisor bits =
    Return (b, [PrintCounterExample x e d]) ->
  exists c m, solution = Bound (Some c) /\
    check (negated_equation c divisor bits) = sat m /\
    b = false /\
    x = as_long m (BitVec "x" bits) /\
    e = x / divisor /\
    d = Z.shiftr (Z.land (x * multiplier sol) (Z.shiftl 1 bits - 1))
                 (shift sol).
Proof.
  unfold check_solution. destruct solution as [|[c|]]; try discriminate.
  destruct (check _) eqn:E; try discriminate.
  destruct (shift sol <? 0); [discriminate|].
  destruct (divisor =? 0); [discriminate|].
  intros [= <- <- <- <-]. exists c, m. repeat split; auto.
Qed.

(** When [check_solution] says "correct", the dictionary bound to the
    module-level [solution] divides correctly on the whole domain. *)
Lemma bound_solution_correct (c sol : Candidate) divisor bits out :
  unsat_sound check ->
  0 < divisor < 2 ^ bits ->
  0 <= multiplier c < 2 ^ bits ->
  0 <= shift c < 2 ^ bits ->
  check_solution check (Bound (Some c)) sol divisor bits =
    Return (true, out) ->
  forall x, 0 <= x < 2 ^ bits ->
    x / divisor = computed bits (multiplier c) (shift c) x.
Proof.
  intros Hsound Hd Ha Hs Hret x Hx.
  apply check_solution_true in Hret as [c' [[= <-] [Hunsat _]]].
  pose proof (Hsound _ Hunsat (update empty_model "x" bits x)) as Hno.
  rewrite negated_equation_reads in Hno by assumption.
  unfold as_long in Hno. cbn [eval] in Hno.
  rewrite update_same, (mod_small_id bits x) in Hno by assumption.
  apply negb_false_iff in Hno. now apply Z.eqb_eq.
Qed.

(** A counterexample reported for the bound dictionary is a real one. *)
Lemma bound_solution_refuted (c sol : Candidate) divisor bits b x e d :
  sat_sound check ->
  0 < bits ->
  0 < divisor < 2 ^ bits ->
  0 <= multiplier c < 2 ^ bits ->
  0 <= shift c < 2 ^ bits ->
  check_solution check (Bound (Some c)) sol divisor bits =
    Return (b, [PrintCounterExample x e d]) ->
  0 <= x < 2 ^ bits /\
  x / divisor <> computed bits (multiplier c) (shift c) x.
Proof.
  intros Hsound Hb Hd Ha Hs Hret.
  apply check_solution_counterexample in Hret
    as [c' [m [[= <-] [Hsat [_ [-> _]]]]]].
  apply Hsound in Hsat.
  rewrite negated_equation_reads in Hsat by assumption.
  split; [apply eval_BitVec_range; lia|].
  apply negb_true_iff in Hsat. now apply Z.eqb_neq.
Qed.

(** A candidate returned by [find_constants] satisfies every assertion of
    its query. *)
Lemma find_constants_sound div bits range (c : Candidate) :
  sat_sound check ->
  0 < bits ->
  0 < div < 2 ^ bits ->
  fst (find_constants check div bits range) = Some c ->
  0 <= multiplier c < 2 ^ bits /\
  0 <= shift c < 2 * bits /\
  (forall x, 0 <= x < 2 ^ bits ->
     x / div = computed bits (multiplier c) (shift c) x) /\
  (forall r, range = Some r ->
     fst r mod 2 ^ bits <= multiplier c < snd r mod 2 ^ bits).
Proof.
  intros Hsound Hb Hd. unfold find_constants.
  destruct (check _) as [m| |] eqn:E; try discriminate.
  cbn [fst]. intros [= <-]. cbn [multiplier shift].
  apply Hsound in E. unfold formula in E.
  apply satisfies_add in E as [Hpre Hall].
  rewrite holds_ForAll_one in Hall.
  assert (Hsb : satisfies m (shift_bounds bits) = true /\
                forall r, range = Some r ->
                  fst r mod 2 ^ bits <= as_long m (BitVec "a" bits)
                                     < snd r mod 2 ^ bits).
  { destruct range as [[min_a max_a]|].
    - apply satisfies_add in Hpre as [Hpre Hlt].
      apply satisfies_add in Hpre as [Hpre Hle].
      split; [assumption|]. intros r [= <-]. cbn [fst snd].
      cbn [holds eval] in Hle, Hlt. unfold as_long. cbn [eval].
      apply Z.leb_le in Hle. apply Z.ltb_lt in Hlt. lia.
    - split; [assumption|]. intros r; discriminate. }
  destruct Hsb as [Hsb Hrange].
  split; [apply eval_BitVec_range; lia|].
  split; [now apply shift_bounds_inside|].
  split; [|assumption].
  intros x Hx. specialize (Hall x Hx).
  cbn [holds] in Hall. rewrite eval_mul_shift in Hall by reflexivity.
  cbn [eval size] in Hall.
  rewrite update_same in Hall.
  rewrite !update_other in Hall by discriminate.
  rewrite (mod_small_id bits x), (mod_small_id bits div) in Hall by lia.
  replace (div =? 0) with false in Hall by (symmetry; apply Z.eqb_neq; lia).
  apply Z.eqb_eq in Hall. exact Hall.
Qed.


End WithSolver.

End ScriptFacts.

(* ================================================================== *)
(** ** The partition of the multiplier domain *)
(* ================================================================== *)

Module Partition.
Import Z3 Z3Facts Inv ScriptFacts.

Section Ranges.

Variables div bits cpus : Z.
Hypothesis bits_pos : 1 <= bits.
Hypothesis cpus_pos : 1 <= cpus.

Let part_num := 1024 * cpus.
Let max_value := 2 ^ bits.
Let part_size := max_value / part_num.
Let ranges := map range_of (search_ranges div bits cpus).

Lemma part_size_facts :
  0 < max_value /\ 0 <= part_size /\ part_num * part_size <= max_value.
Proof.
  unfold part_size, max_value, part_num.
  pose proof (pow2_pos bits ltac:(lia)) as HM.
  split; [assumption|]. split.
  - apply Z.div_pos; lia.
  - apply Z.mul_div_le. lia.
Qed.

Lemma nth_range i r :
  nth_error ranges i = Some r ->
  Z.of_nat i < part_num /\
  fst r = Z.of_nat i * part_size /\
  snd r = if Z.of_nat i <? part_num - 1
          then (Z.of_nat i + 1) * part_size else max_value.
Proof. apply nth_error_search_ranges. Qed.

Lemma nth_range_exists (i : Z) :
  0 <= i < part_num ->
  exists r, nth_error ranges (Z.to_nat i) = Some r /\
    fst r = i * part_size /\
    snd r = if i <? part_num - 1 then (i + 1) * part_size else max_value.
Proof.
  intros Hi.
  destruct (nth_error_search_ranges_exists div bits cpus (Z.to_nat i))
    as [r Hr]; [fold part_num; lia|].
  exists r. split; [exact Hr|].
  apply nth_range in Hr as [_ [Hf Hs]].
  rewrite Z2Nat.id in Hf, Hs by lia. now split.
Qed.

Lemma range_inside r v :
  In r ranges -> in_range r v -> 0 <= v < max_value.
Proof.
  intros Hin [Hlo Hhi]. apply In_nth_error in Hin as [i Hi].
  apply nth_range in Hi as [Hlt [Hf Hs]].
  destruct part_size_facts as [HM [Hp Hnp]].
  rewrite Hf in Hlo. rewrite Hs in Hhi. split; [nia|].
  destruct (Z.of_nat i <? part_num - 1) eqn:E; [|assumption].
  apply Z.ltb_lt in E. nia.
Qed.

Lemma range_covers v :
  0 <= v < max_value -> exists r, In r ranges /\ in_range r v.
Proof.
  intros Hv. destruct part_size_facts as [HM [Hp Hnp]].
  assert (Hn : 1024 <= part_num) by (unfold part_num; lia).
  assert (Hcase : part_size = 0 \/
                  (0 < part_size /\ v / part_size < part_num - 1) \/
                  (0 < part_size /\ part_num - 1 <= v / part_size)) by lia.
  destruct Hcase as [H0|[[Hpp Hq]|[Hpp Hq]]].
  - destruct (nth_range_exists (part_num - 1)) as [r [Hr [Hf Hs]]]; [lia|].
    exists r. split; [eapply nth_error_In; eassumption|].
    rewrite Z.ltb_irrefl in Hs. unfold in_range. rewrite Hf, Hs, H0. lia.
  - pose proof (Z.div_pos v part_size ltac:(lia) Hpp) as Hq0.
    destruct (nth_range_exists (v / part_size)) as [r [Hr [Hf Hs]]]; [lia|].
    exists r. split; [eapply nth_error_In; eassumption|].
    replace (v / part_size <? part_num - 1) with true in Hs
      by (symmetry; apply Z.ltb_lt; lia).
    unfold in_range. rewrite Hf, Hs.
    pose proof (Z.mul_div_le v part_size Hpp).
    pose proof (Z.mul_succ_div_gt v part_size Hpp). lia.
  - destruct (nth_range_exists (part_num - 1)) as [r [Hr [Hf Hs]]]; [lia|].
    exists r. split; [eapply nth_error_In; eassumption|].
    rewrite Z.ltb_irrefl in Hs. unfold in_range. rewrite Hf, Hs.
    pose proof (Z.mul_div_le v part_size Hpp). split; [nia|lia].
Qed.

Lemma ranges_ordered i j ri rj :
  (i < j)%nat ->
  nth_error ranges i = Some ri -> nth_error ranges j = Some rj ->
  snd ri <= fst rj.
Proof.
  intros Hij Hi Hj.
  apply nth_range in Hi as [Hi [_ Hsi]].
  apply nth_range in Hj as [Hj [Hfj _]].
  destruct part_size_facts as [HM [Hp Hnp]].
  replace (Z.of_nat i <? part_num - 1) with true in Hsi
    by (symmetry; apply Z.ltb_lt; lia).
  rewrite Hsi, Hfj. nia.
Qed.

Lemma ranges_adjacent i ri rj :
  nth_error ranges i = Some ri -> nth_error ranges (S i) = Some rj ->
  snd ri = fst rj.
Proof.
  intros Hi Hj.
  apply nth_range in Hi as [Hi [_ Hsi]].
  apply nth_range in Hj as [Hj [Hfj _]].
  replace (Z.of_nat i <? part_num - 1) with true in Hsi
    by (symmetry; apply Z.ltb_lt; lia).
  rewrite Hsi, Hfj. f_equal. lia.
Qed.

Lemma ranges_disjoint i j ri rj v :
  i <> j ->
  nth_error ranges i = Some ri -> nth_error ranges j = Some rj ->
  in_range ri v -> ~ in_range rj v.
Proof.
  intros Hne Hi Hj [Hlo Hhi] [Hlo' Hhi'].
  destruct (Nat.lt_ge_cases i j) as [Hlt|Hge].
  - pose proof (ranges_ordered i j ri rj Hlt Hi Hj). lia.
  - assert (Hlt : (j < i)%nat) by lia.
    pose proof (ranges_ordered j i rj ri Hlt Hj Hi). lia.
Qed.

End Ranges.

End Partition.

(* ================================================================== *)
(** ** The coordinator's ranges and the verifier's decision *)
(* ================================================================== *)

Module Coordinator.
Import Z3 Z3Facts Inv ScriptFacts Partition Scenario.

(** C2.  For a width of at least one bit and at least one worker, the
    ranges that [find_parallel] hands to the pool number [1024 * cpus],
    start at [0], end at [2 ^ bits], each ends where the next one starts,
    they are pairwise disjoint, and a value lies in one of them exactly
    when it lies in [[0, 2 ^ bits)]. *)
Theorem partition_coverage (div bits cpus : Z) :
  1 <= bits -> 1 <= cpus ->
  let ranges := map range_of (search_ranges div bits cpus) in
  List.length ranges = Z.to_nat (1024 * cpus) /\
  (forall v, 0 <= v < 2 ^ bits <-> exists r, In r ranges /\ in_range r v) /\
  (forall i j ri rj v, i <> j ->
     nth_error ranges i = Some ri -> nth_error ranges j = Some rj ->
     in_range ri v -> ~ in_range rj v) /\
  (forall i ri rj,
     nth_error ranges i = Some ri -> nth_error ranges (S i) = Some rj ->
     snd ri = fst rj) /\
  (exists r, nth_error ranges 0 = Some r /\ fst r = 0) /\
  (exists r, nth_error ranges (Z.to_nat (1024 * cpus - 1)) = Some r /\
             snd r = 2 ^ bits).
Proof.
  intros Hb Hc ranges.
  split; [|split; [|split; [|split; [|split]]]].
  - unfold ranges, search_ranges. now rewrite !length_map, length_seq.
  - intros v. split.
    + eapply range_covers; eauto.
    + intros [r [Hin Hr]]. eapply range_inside; eauto.
  - intros i j ri rj v. eapply ranges_disjoint; eauto.
  - intros i ri rj. eapply ranges_adjacent; eauto.
  - destruct (nth_range_exists div bits cpus Hb 0) as [r [Hr [Hf _]]]; [lia|].
    exists r. split; [exact Hr | lia].
  - destruct (nth_range_exists div bits cpus Hb (1024 * cpus - 1))
      as [r [Hr [_ Hs]]]; [lia|].
    exists r. split; [exact Hr|].
    now rewrite Z.ltb_irrefl in Hs.
Qed.

Lemma partition_coverage_witness :
  1 <= 10 /\ 1 <= 1 /\
  let ranges := map range_of (search_ranges 3 10 1) in
  List.length ranges = Z.to_nat (1024 * 1) /\
  (forall v, 0 <= v < 2 ^ 10 <-> exists r, In r ranges /\ in_range r v) /\
  (forall i j ri rj v, i <> j ->
     nth_error ranges i = Some ri -> nth_error ranges j = Some rj ->
     in_range ri v -> ~ in_range rj v) /\
  (forall i ri rj,
     nth_error ranges i = Some ri -> nth_error ranges (S i) = Some rj ->
     snd ri = fst rj) /\
  (exists r, nth_error ranges 0 = Some r /\ fst r = 0) /\
  (exists r, nth_error ranges (Z.to_nat (1024 * 1 - 1)) = Some r /\
             snd r = 2 ^ 10).
Proof.
  split; [lia|]. split; [lia|]. apply (partition_coverage 3 10 1); lia.
Defined.

(** The upper bound of the last range is [2 ^ bits], which as a
    [bits]-wide value is [0]: the query for the last range asks for a
    multiplier below zero and has no model. *)
Lemma last_range_query_unsat (m : Model) div bits start :
  0 <= bits ->
  satisfies m (formula div bits (Some (start, 2 ^ bits))) = false.
Proof.
  intros Hb. destruct (satisfies m _) eqn:E; [|reflexivity].
  unfold formula in E.
  apply satisfies_add in E as [E _].
  apply satisfies_add in E as [_ E].
  cbn [holds eval] in E. apply Z.ltb_lt in E.
  rewrite Z.mod_same in E by (pose proof (pow2_pos bits Hb); lia).
  pose proof (Z.mod_pos_bound (m "a"%string bits) (2 ^ bits)
                (pow2_pos bits Hb)). lia.
Qed.

(** C10.  Two calls of [check_solution] that differ only in [sol] and both
    return, return the same boolean: the query is built from the
    module-level [solution]. *)
Theorem check_solution_ignores_sol
  (check : Solver -> CheckSatResult) (solution : Binding)
  (sol1 sol2 : Candidate) (divisor bits : Z)
  (b1 b2 : bool) (out1 out2 : list Line) :
  check_solution check solution sol1 divisor bits = Return (b1, out1) ->
  check_solution check solution sol2 divisor bits = Return (b2, out2) ->
  b1 = b2.
Proof.
  unfold check_solution. destruct solution as [|[c|]]; try discriminate.
  destruct (check _).
  - destruct (shift sol1 <? 0); [discriminate|].
    destruct (shift sol2 <? 0); [discriminate|].
    destruct (divisor =? 0); [discriminate|].
    intros [= <- _] [= <- _]. reflexivity.
  - intros [= <- _] [= <- _]. reflexivity.
  - intros [= <- _] [= <- _]. reflexivity.
Qed.

Lemma check_solution_ignores_sol_witness :
  check_solution Enum.check (Bound (Some (cand 57 9))) (cand 1 0) 9 8 =
    Return (true, [PrintCorrect (cand 1 0)]) /\
  check_solution Enum.check (Bound (Some (cand 57 9))) (cand 57 9) 9 8 =
    Return (true, [PrintCorrect (cand 57 9)]) /\
  true = true.
Proof.
  assert (H1 : check_solution Enum.check (Bound (Some (cand 57 9)))
                 (cand 1 0) 9 8 = Return (true, [PrintCorrect (cand 1 0)]))
    by (vm_compute; reflexivity).
  assert (H2 : check_solution Enum.check (Bound (Some (cand 57 9)))
                 (cand 57 9) 9 8 = Return (true, [PrintCorrect (cand 57 9)]))
    by (vm_compute; reflexivity).
  split; [exact H1|]. split; [exact H2|].
  exact (check_solution_ignores_sol Enum.check (Bound (Some (cand 57 9)))
           (cand 1 0) (cand 57 9) 9 8 true true _ _ H1 H2).
Defined.

(** Acceptance does not depend on [sol] at all, exceptions included. *)
Lemma accepted_ignores_sol
  (check : Solver -> CheckSatResult) (solution : Binding)
  (sol1 sol2 : Candidate) (divisor bits : Z) :
  accepted (check_solution check solution sol1 divisor bits) =
  accepted (check_solution check solution sol2 divisor bits).
Proof.
  unfold check_solution. destruct solution as [|[c|]]; try reflexivity.
  destruct (check _); try reflexivity.
  destruct (shift sol1 <? 0), (shift sol2 <? 0), (divisor =? 0);
    reflexivity.
Qed.

(** C1 (the script departs from it).  With [solution] bound to
    [(57, 9)], [check_solution] called on [sol = (1, 0)] for divisor 9 and
    8 bits returns [True] and prints "correct" for [(1, 0)], although
    [(1, 0)] computes 18 instead of [18 / 9 = 2] on [x = 18]. *)
Theorem accepted_sol_not_checked :
  check_solution Enum.check (Bound (Some (cand 57 9))) (cand 1 0) 9 8 =
    Return (true, [PrintCorrect (cand 1 0)]) /\
  18 / 9 = 2 /\
  computed 8 (multiplier (cand 1 0)) (shift (cand 1 0)) 18 = 18.
Proof. repeat split; vm_compute; reflexivity. Qed.

(** C4 (the script departs from it).  For [(57, 8)], divisor 9 and 8 bits
    the enumerating solver finds [x = 5]; the script prints expected 0 and
    computed 0, although the candidate computes [(57 * 5) >> 8 = 1]: the
    printed value is masked to 8 bits before the shift. *)
Theorem counterexample_line_masks_before_shift :
  check_solution Enum.check (Bound (Some (cand 57 8))) (cand 57 8) 9 8 =
    Return (false, [PrintCounterExample 5 0 0]) /\
  5 / 9 = 0 /\
  computed 8 57 8 5 = 1.
Proof. repeat split; vm_compute; reflexivity. Qed.

End Coordinator.

(* ================================================================== *)
(** ** Outcomes of the search and of the verification *)
(* ================================================================== *)

Module Outcomes.
Import Z3 Z3Facts Inv Queries ScriptFacts Scenario Samples.

(** C3 (as the script has it).  Each function reacts to the answer to
    its own query.  On an [unknown] answer to the verifier's query
    [check_solution] prints "Verification timeout" and returns [False]:
    the line differs from the lines of the other two answers, the
    returned value is that of a rejection and differs from that of an
    acceptance only.  On an [unknown] answer to the search query
    [find_constants] returns [None] and prints nothing, exactly as on
    [unsat]; only a [sat] answer gives another result. *)
Theorem unknown_outcomes
  (check : Solver -> CheckSatResult) (c sol : Candidate)
  (divisor bits div : Z) (range : option (Z * Z)) :
  (check (negated_equation c divisor bits) = unknown ->
   check_solution check (Bound (Some c)) sol divisor bits =
     Return (false, [PrintTimeout])) /\
  (check (negated_equation c divisor bits) = unsat ->
   check_solution check (Bound (Some c)) sol divisor bits =
     Return (true, [PrintCorrect sol])) /\
  (forall m b out,
     check (negated_equation c divisor bits) = sat m ->
     check_solution check (Bound (Some c)) sol divisor bits =
       Return (b, out) ->
     b = false /\ out <> [PrintTimeout]) /\
  (check (formula div bits range) = unknown ->
   find_constants check div bits range = (None, [])) /\
  (check (formula div bits range) = unsat ->
   find_constants check div bits range = (None, [])) /\
  (forall m, check (formula div bits range) = sat m ->
     fst (find_constants check div bits range) <> None).
Proof.
  unfold check_solution, find_constants.
  split; [|split; [|split; [|split; [|split]]]].
  - intros H. now rewrite H.
  - intros H. now rewrite H.
  - intros m b out H Hret. rewrite H in Hret.
    destruct (shift sol <? 0); [discriminate|].
    destruct (divisor =? 0); [discriminate|].
    injection Hret as <- <-. split; [reflexivity | discriminate].
  - intros H. now rewrite H.
  - intros H. now rewrite H.
  - intros m H. rewrite H. discriminate.
Qed.

Lemma unknown_outcomes_witness :
  unknown_unless_quantified (negated_equation (cand 57 9) 9 8) = unknown /\
  check_solution unknown_unless_quantified (Bound (Some (cand 57 9)))
    (cand 57 9) 9 8 = Return (false, [PrintTimeout]) /\
  fst (find_constants unknown_unless_quantified 3 5 None) =
    Some (cand 11 5) /\
  Enum.always_unknown (formula 3 5 None) = unknown /\
  find_constants Enum.always_unknown 3 5 None = (None, []).
Proof.
  assert (H1 : unknown_unless_quantified
                 (negated_equation (cand 57 9) 9 8) = unknown)
    by reflexivity.
  assert (H2 : Enum.always_unknown (formula 3 5 None) = unknown)
    by reflexivity.
  split; [exact H1|]. split.
  - exact (proj1 (unknown_outcomes unknown_unless_quantified (cand 57 9)
                    (cand 57 9) 9 8 3 None) H1).
  - split; [vm_compute; reflexivity|]. split; [exact H2|].
    exact (proj1 (proj2 (proj2 (proj2
             (unknown_outcomes Enum.always_unknown (cand 57 9) (cand 57 9)
                9 8 3 None)))) H2).
Defined.

(** C3 as stated fails: for divisor 3, 5 bits and the range [[0, 1)] the
    enumerating solver answers [unsat], the exhausted solver answers
    [unknown], and [find_constants] gives the same result for both. *)
Lemma unknown_same_as_unsat :
  Enum.check (formula 3 5 (Some (0, 1))) = unsat /\
  Enum.always_unknown (formula 3 5 (Some (0, 1))) = unknown /\
  ~ (find_constants Enum.always_unknown 3 5 (Some (0, 1)) <>
     find_constants Enum.check 3 5 (Some (0, 1))).
Proof.
  split; [vm_compute; reflexivity|]. split; [reflexivity|].
  intros H. apply H. vm_compute. reflexivity.
Qed.




End Outcomes.

(* ================================================================== *)
(** ** The scenarios for divisor 9 on 8 bits, and the two formulators *)
(* ================================================================== *)

Module Scenarios.
Import Z3 Z3Facts Inv Queries ScriptFacts Scenario.

Lemma on_all_values (p : Z -> bool) (bits : Z) :
  all p (values bits) = true ->
  forall x, 0 <= x < 2 ^ bits -> p x = true.
Proof.
  intros H x Hx. rewrite all_true_iff in H. now apply H, In_values.
Qed.

Lemma candidate_57_9_divides (x : Z) :
  0 <= x < 2 ^ 8 ->
  x / 9 = computed 8 57 9 x /\ Z.shiftr (57 * x) 9 = x / 9.
Proof.
  intros Hx.
  pose proof (on_all_values
    (fun x => (x / 9 =? computed 8 57 9 x) && (Z.shiftr (57 * x) 9 =? x / 9))%bool
    8 ltac:(vm_compute; reflexivity) x Hx) as H.
  cbv beta in H. apply andb_true_iff in H as [H1 H2].
  split; now apply Z.eqb_eq.
Qed.

(** With [solution] bound to [(57, 9)], for divisor 9 on 8 bits: the
    candidate gives [(57 * x) >> 9 = x / 9] on every [x] below 256, also
    with the product in 16 bits and the result cut to 8 bits; the
    verifier run with the enumerating solver returns [True]; with any
    solver it returns [True] on an [unsat] answer, and a solver whose
    [sat] answers are sound never makes it print a counterexample. *)
Theorem candidate_57_9_accepted (check : Solver -> CheckSatResult) (x : Z) :
  sat_sound check ->
  0 <= x < 2 ^ 8 ->
  Z.shiftr (57 * x) 9 = x / 9 /\
  x / 9 = computed 8 57 9 x /\
  check_solution Enum.check (Bound (Some (cand 57 9))) (cand 57 9) 9 8 =
    Return (true, [PrintCorrect (cand 57 9)]) /\
  (check (negated_equation (cand 57 9) 9 8) = unsat ->
   check_solution check (Bound (Some (cand 57 9))) (cand 57 9) 9 8 =
     Return (true, [PrintCorrect (cand 57 9)])) /\
  (forall b x' e d,
     check_solution check (Bound (Some (cand 57 9))) (cand 57 9) 9 8 <>
       Return (b, [PrintCounterExample x' e d])).
Proof.
  intros Hsound Hx.
  destruct (candidate_57_9_divides x Hx) as [H1 H2].
  split; [exact H2|]. split; [exact H1|].
  split; [vm_compute; reflexivity|]. split.
  - intros H. unfold check_solution. now rewrite H.
  - intros b x' e d Hrej.
    apply bound_solution_refuted in Hrej as [Hx' Hne];
      try assumption; try (cbn; lia).
    apply Hne. now apply candidate_57_9_divides.
Qed.

Lemma candidate_57_9_accepted_witness :
  sat_sound Enum.check /\
  0 <= 255 < 2 ^ 8 /\
  Z.shiftr (57 * 255) 9 = 255 / 9 /\
  255 / 9 = computed 8 57 9 255 /\
  check_solution Enum.check (Bound (Some (cand 57 9))) (cand 57 9) 9 8 =
    Return (true, [PrintCorrect (cand 57 9)]).
Proof.
  assert (Hs : sat_sound Enum.check) by apply EnumFacts.check_sat_sound.
  assert (Hx : 0 <= 255 < 2 ^ 8) by (cbn; lia).
  destruct (candidate_57_9_accepted Enum.check 255 Hs Hx)
    as [H1 [H2 [H3 _]]].
  split; [exact Hs|]. split; [exact Hx|].
  split; [exact H1|]. split; [exact H2 | exact H3].
Defined.

(** C6 (the script departs from it).  The candidate [(57, 9)] is right
    for divisor 9 on 8 bits: [(57 * x) >> 9 = x / 9] on all 256 values,
    also with the result cut to 8 bits.  But the verdict of
    [check_solution] called on it follows the module-level [solution]:
    with [solution] bound to [(1, 0)] the call returns [False] and prints
    the counterexample [x = 1] with "0 != 0", and with [solution] unbound
    it raises [NameError]. *)
Theorem candidate_57_9_verdict_follows_binding :
  all (fun x => (Z.shiftr (57 * x) 9 =? x / 9) &&
                (x / 9 =? computed 8 57 9 x))%bool (values 8) = true /\
  check_solution Enum.check (Bound (Some (cand 1 0))) (cand 57 9) 9 8 =
    Return (false, [PrintCounterExample 1 0 0]) /\
  check_solution Enum.check Unbound (cand 57 9) 9 8 = Raise NameError.
Proof. repeat split; vm_compute; reflexivity. Qed.

(** For [(57, 8)], divisor 9 and 8 bits, whatever counterexample a solver
    with sound [sat] answers returns, the printed computed value is 0 and
    the value the candidate computes is not. *)
Lemma printed_value_57_8_wrong (check : Solver -> CheckSatResult)
  (b : bool) (x e d : Z) :
  sat_sound check ->
  check_solution check (Bound (Some (cand 57 8))) (cand 57 8) 9 8 =
    Return (b, [PrintCounterExample x e d]) ->
  d = 0 /\ computed 8 57 8 x <> 0.
Proof.
  intros Hsound Hret.
  pose proof (bound_solution_refuted check (cand 57 8) (cand 57 8) 9 8
                b x e d Hsound ltac:(lia) ltac:(cbn; lia) ltac:(cbn; lia)
                ltac:(cbn; lia) Hret) as [Hx Hne].
  apply check_solution_counterexample in Hret
    as [_ [_ [_ [_ [_ [_ [_ Hd]]]]]]].
  cbn [multiplier shift cand] in *.
  pose proof (on_all_values
    (fun x => (Z.shiftr (Z.land (x * 57) (Z.shiftl 1 8 - 1)) 8 =? 0) &&
              ((x / 9 =? computed 8 57 8 x) ||
               negb (computed 8 57 8 x =? 0)))%bool
    8 ltac:(vm_compute; reflexivity) x Hx) as H.
  cbv beta in H. apply andb_true_iff in H as [H0 H1].
  apply Z.eqb_eq in H0. split; [congruence|].
  apply orb_true_iff in H1 as [H1|H1].
  - apply Z.eqb_eq in H1. contradiction.
  - apply negb_true_iff, Z.eqb_neq in H1. exact H1.
Qed.




(** C8 (the script departs from it).  On 4 bits the shift value 0, which
    lies in [[0, 8)], does not satisfy the two assertions on [shift]:
    [2 * 4] read as a signed 4-bit value is [-8].  The search for divisor
    3 on 4 bits therefore returns nothing, although [(11, 5)] divides
    correctly on all 16 values. *)
Theorem shift_bounds_fail_on_4_bits :
  as_long s_is_0 (BitVec "s" 4) = 0 /\
  satisfies s_is_0 (shift_bounds 4) = false /\
  find_constants Enum.check 3 4 None = (None, []) /\
  all (fun x => x / 3 =? computed 4 11 5 x) (values 4) = true.
Proof. repeat split; vm_compute; reflexivity. Qed.

(** From 5 bits on, the two assertions hold exactly for the shifts in
    [[0, 2 * bits)], and every candidate of [find_constants] has such a
    shift. *)
Lemma shift_range_from_5_bits
  (check : Solver -> CheckSatResult) (div bits : Z)
  (range : option (Z * Z)) (c : Candidate) :
  sat_sound check ->
  5 <= bits ->
  (forall m, satisfies m (shift_bounds bits) = true <->
             0 <= as_long m (BitVec "s" bits) < 2 * bits) /\
  (fst (find_constants check div bits range) = Some c ->
   0 <= shift c < 2 * bits).
Proof.
  intros Hsound Hb. split.
  - intros m. now apply shift_bounds_exact.
  - unfold find_constants.
    destruct (check _) as [m| |] eqn:E; try discriminate.
    cbn [fst]. intros [= <-]. cbn [shift].
    apply Hsound in E. unfold formula in E.
    apply satisfies_add in E as [E _].
    apply shift_bounds_inside; [lia|].
    destruct range as [[min_a max_a]|]; [|exact E].
    apply satisfies_add in E as [E _].
    now apply satisfies_add in E as [E _].
Qed.

(** C9.  A candidate returned by [simple] has shift 0, and its multiplier
    [m], a value of the width, satisfies [m * (k * div) = k] modulo
    [2 ^ bits] for [k = 0x1234567]; [k * div] is a multiple of [div]. *)
Theorem simple_candidate_equation
  (check : Solver -> CheckSatResult) (div bits : Z)
  (c : Candidate) (out : list Line) :
  sat_sound check ->
  0 < bits ->
  simple check div bits = Return (Some c, out) ->
  shift c = 0 /\
  0 <= multiplier c < 2 ^ bits /\
  (multiplier c * (19088743 * div)) mod 2 ^ bits = 19088743 mod 2 ^ bits /\
  (19088743 * div) mod div = 0.
Proof.
  intros Hsound Hb. unfold simple.
  destruct (div =? 0) eqn:Ediv; [discriminate|].
  apply Z.eqb_neq in Ediv.
  destruct (check _) as [m| |] eqn:E; try discriminate.
  intros [= <- _]. cbn [shift multiplier].
  apply Hsound in E. unfold satisfies, add in E.
  cbn [app all holds eval size] in E.
  destruct (_ =? _) eqn:Eq in E; [|discriminate].
  apply Z.eqb_eq in Eq.
  rewrite Z.div_mul in Eq by assumption.
  pose proof (pow2_pos bits ltac:(lia)) as Hp.
  rewrite Z.mul_mod_idemp_l in Eq by lia.
  split; [reflexivity|].
  split; [apply eval_BitVec_range; lia|].
  split.
  - unfold as_long. cbn [eval]. rewrite Z.mul_comm. exact Eq.
  - apply Z.mod_mul. assumption.
Qed.

Lemma simple_candidate_equation_witness :
  sat_sound Enum.check /\
  0 < 8 /\
  simple Enum.check 9 8 = Return (Some (cand 57 0), [PrintHex 57]) /\
  shift (cand 57 0) = 0 /\
  0 <= multiplier (cand 57 0) < 2 ^ 8 /\
  (multiplier (cand 57 0) * (19088743 * 9)) mod 2 ^ 8 = 19088743 mod 2 ^ 8 /\
  (19088743 * 9) mod 9 = 0.
Proof.
  assert (Hs : sat_sound Enum.check) by apply EnumFacts.check_sat_sound.
  assert (Hb : 0 < 8) by lia.
  assert (Hr : simple Enum.check 9 8 =
               Return (Some (cand 57 0), [PrintHex 57]))
    by (vm_compute; reflexivity).
  split; [exact Hs|]. split; [exact Hb|]. split; [exact Hr|].
  exact (simple_candidate_equation Enum.check 9 8 _ _ Hs Hb Hr).
Defined.

End Scenarios.

(* ================================================================== *)
(** ** The [__main__] block *)
(* ================================================================== *)

Module MainBlock.
Import Z3 Z3Facts Inv Queries ScriptFacts.

(** In [__main__] the argument [sol] is the dictionary bound to
    [solution]; there a "correct" line is about a candidate that divides
    by 9 correctly on all 32-bit values. *)
Lemma main_correct_line (check : Solver -> CheckSatResult)
  (out : list Line) (c : Candidate) :
  sat_sound check ->
  unsat_sound check ->
  main check = Return out ->
  In (PrintCorrect c) out ->
  forall x, 0 <= x < 2 ^ 32 ->
    x / 9 = computed 32 (multiplier c) (shift c) x.
Proof.
  intros Hsat Hunsat. unfold main.
  destruct (find_constants check 9 32 None) as [[c0|] out0] eqn:Efind.
  - pose proof (find_constants_sound check 9 32 None c0 Hsat
                  ltac:(lia) ltac:(cbn; lia)) as Hc0.
    rewrite Efind in Hc0. specialize (Hc0 eq_refl).
    destruct Hc0 as [Ha [Hs _]].
    destruct (check_solution check _ c0 9 32) as [[b out']|e] eqn:Ever;
      [|discriminate].
    intros [= <-] Hin.
    unfold find_constants in Efind.
    destruct (check (formula 9 32 None)); try discriminate.
    injection Efind as _ <-.
    destruct Hin as [Hin|Hin]; [discriminate|]. cbn [app] in Hin.
    destruct b.
    + pose proof Ever as Hout.
      apply check_solution_true in Hout as [_ [_ [_ ->]]].
      destruct Hin as [[= ->]|[]].
      apply (bound_solution_correct check c c 9 32 [PrintCorrect c] Hunsat);
        try assumption; cbn; cbn in Hs; lia.
    + exfalso. unfold check_solution in Ever.
      destruct (check (negated_equation c0 9 32)); try discriminate.
      * destruct (shift c0 <? 0); [discriminate|].
        cbn in Ever. injection Ever as <-.
        destruct Hin as [Hin|[]]. discriminate.
      * injection Ever as <-. destruct Hin as [Hin|[]]. discriminate.
  - intros [= <-]. unfold find_constants in Efind.
    destruct (check (formula 9 32 None)); try discriminate;
      injection Efind as <-; intros [].
Qed.

End MainBlock.

(* ================================================================== *)
(** ** The queries for arbitrary integer arguments *)
(* ================================================================== *)

Module Wrapped.
Import Z3 Z3Facts Inv Queries ScriptFacts.

Lemma computed_at_0 bits a s : computed bits a s 0 = 0.
Proof.
  unfold computed. rewrite Z.mul_0_r, Zmod_0_l, Z.shiftr_0_l.
  apply Zmod_0_l.
Qed.

Lemma pow2_ge_2 bits : 0 < bits -> 2 <= 2 ^ bits.
Proof. intros H. pose proof (two_bits_le_pow bits H). lia. Qed.

(** The quotient of the query: z3 divides by the divisor as a value of
    the width, and division by zero gives the all-ones value. *)
Lemma eval_quotient (m : Model) divisor bits :
  eval m (UDiv (BitVec "x" bits) (BitVecVal divisor bits)) =
  if divisor mod 2 ^ bits =? 0 then 2 ^ bits - 1
  else as_long m (BitVec "x" bits) / (divisor mod 2 ^ bits).
Proof. reflexivity. Qed.

Lemma negated_equation_wrapped (m : Model) (c : Candidate) divisor bits :
  satisfies m (negated_equation c divisor bits) =
  negb (eval m (UDiv (BitVec "x" bits) (BitVecVal divisor bits)) =?
        computed bits (multiplier c mod 2 ^ bits) (shift c mod 2 ^ bits)
                 (as_long m (BitVec "x" bits))).
Proof.
  unfold negated_equation, satisfies, add, as_long.
  cbn [app all holds]. rewrite eval_mul_shift by reflexivity.
  cbn [eval size]. now destruct (negb _).
Qed.

(** A model of the search query, read as arithmetic. *)
Lemma formula_wrapped (m : Model) div bits range :
  0 < bits ->
  satisfies m (formula div bits range) = true ->
  div mod 2 ^ bits <> 0 /\
  0 <= as_long m (BitVec "s" bits) < 2 * bits /\
  (forall r, range = Some r ->
     fst r mod 2 ^ bits <= as_long m (BitVec "a" bits)
                        < snd r mod 2 ^ bits) /\
  (forall x, 0 <= x < 2 ^ bits ->
     x / (div mod 2 ^ bits) =
     computed bits (as_long m (BitVec "a" bits))
              (as_long m (BitVec "s" bits)) x).
Proof.
  intros Hb E. unfold formula in E.
  apply satisfies_add in E as [Hpre Hall].
  rewrite holds_ForAll_one in Hall.
  assert (Hsb : satisfies m (shift_bounds bits) = true /\
                forall r, range = Some r ->
                  fst r mod 2 ^ bits <= as_long m (BitVec "a" bits)
                                     < snd r mod 2 ^ bits).
  { destruct range as [[min_a max_a]|].
    - apply satisfies_add in Hpre as [Hpre Hlt].
      apply satisfies_add in Hpre as [Hpre Hle].
      split; [assumption|]. intros r [= <-]. cbn [fst snd].
      cbn [holds eval] in Hle, Hlt. unfold as_long. cbn [eval].
      apply Z.leb_le in Hle. apply Z.ltb_lt in Hlt. lia.
    - split; [assumption|]. intros r; discriminate. }
  destruct Hsb as [Hsb Hrange].
  assert (Hread : forall x, 0 <= x < 2 ^ bits ->
            (if div mod 2 ^ bits =? 0 then 2 ^ bits - 1
             else x / (div mod 2 ^ bits)) =
            computed bits (as_long m (BitVec "a" bits))
                     (as_long m (BitVec "s" bits)) x).
  { intros x Hx. specialize (Hall x Hx).
    cbn [holds] in Hall. rewrite eval_mul_shift in Hall by reflexivity.
    cbn [eval size] in Hall.
    rewrite update_same in Hall.
    rewrite !update_other in Hall by discriminate.
    rewrite (mod_small_id bits x) in Hall by lia.
    apply Z.eqb_eq in Hall. exact Hall. }
  pose proof (pow2_ge_2 bits Hb) as Hp.
  assert (Hdiv : div mod 2 ^ bits <> 0).
  { intros Hz. specialize (Hread 0 ltac:(lia)).
    rewrite Hz, computed_at_0 in Hread. cbn in Hread. lia. }
  split; [exact Hdiv|].
  split; [now apply shift_bounds_inside|].
  split; [exact Hrange|].
  intros x Hx. specialize (Hread x Hx).
  now replace (div mod 2 ^ bits =? 0) with false in Hread
    by (symmetry; now apply Z.eqb_neq).
Qed.

Section WithSolver.

Variable check : Solver -> CheckSatResult.

Lemma find_constants_answer div bits range (c : Candidate) :
  fst (find_constants check div bits range) = Some c ->
  exists m, check (formula div bits range) = sat m /\
    multiplier c = as_long m (BitVec "a" bits) /\
    shift c = as_long m (BitVec "s" bits).
Proof.
  unfold find_constants.
  destruct (check _) as [m| |]; try discriminate.
  cbn [fst]. intros [= <-]. exists m. repeat split.
Qed.

(** The candidate of a range lies in the range, read modulo the width. *)
Lemma find_constants_in_range div bits lo hi (c : Candidate) :
  sat_sound check ->
  0 < bits ->
  fst (find_constants check div bits (Some (lo, hi))) = Some c ->
  lo mod 2 ^ bits <= multiplier c < hi mod 2 ^ bits.
Proof.
  intros Hsound Hb Hfind.
  apply find_constants_answer in Hfind as [m [Hsat [-> _]]].
  apply Hsound in Hsat.
  apply formula_wrapped in Hsat as [_ [_ [Hr _]]]; [|assumption].
  apply (Hr (lo, hi) eq_refl).
Qed.

End WithSolver.

End Wrapped.

(* ================================================================== *)
(** ** What the verifier's verdicts mean *)
(* ================================================================== *)

Module Verifier.
Import Z3 Z3Facts Inv Queries ScriptFacts Wrapped Scenario.

(** X1.  When [check_solution] returns [True] with a solver whose [unsat]
    answers are sound, it has printed "correct" for [sol], the divisor is
    not zero as a value of the width, and the dictionary bound to
    [solution], with multiplier and shift read modulo [2 ^ bits], divides
    by the divisor, read modulo [2 ^ bits], on every value of the
    width. *)
Theorem accepted_bound_solution_divides
  (check : Solver -> CheckSatResult) (c sol : Candidate)
  (divisor bits : Z) (out : list Line) :
  unsat_sound check ->
  0 < bits ->
  check_solution check (Bound (Some c)) sol divisor bits =
    Return (true, out) ->
  out = [PrintCorrect sol] /\
  divisor mod 2 ^ bits <> 0 /\
  forall x, 0 <= x < 2 ^ bits ->
    x / (divisor mod 2 ^ bits) =
    computed bits (multiplier c mod 2 ^ bits) (shift c mod 2 ^ bits) x.
Proof.
  intros Hsound Hb Hret.
  apply check_solution_true in Hret as [c' [[= <-] [Hunsat ->]]].
  assert (Hread : forall x, 0 <= x < 2 ^ bits ->
            (if divisor mod 2 ^ bits =? 0 then 2 ^ bits - 1
             else x / (divisor mod 2 ^ bits)) =
            computed bits (multiplier c mod 2 ^ bits)
                     (shift c mod 2 ^ bits) x).
  { intros x Hx.
    pose proof (Hsound _ Hunsat (update empty_model "x" bits x)) as Hno.
    rewrite negated_equation_wrapped, eval_quotient in Hno.
    unfold as_long in Hno. cbn [eval] in Hno.
    rewrite update_same, (mod_small_id bits x) in Hno by assumption.
    apply negb_false_iff in Hno. now apply Z.eqb_eq. }
  pose proof (pow2_ge_2 bits Hb) as Hp.
  assert (Hdiv : divisor mod 2 ^ bits <> 0).
  { intros Hz. specialize (Hread 0 ltac:(lia)).
    rewrite Hz, computed_at_0 in Hread. cbn in Hread. lia. }
  split; [reflexivity|]. split; [exact Hdiv|].
  intros x Hx. specialize (Hread x Hx).
  now replace (divisor mod 2 ^ bits =? 0) with false in Hread
    by (symmetry; now apply Z.eqb_neq).
Qed.

Lemma accepted_bound_solution_divides_witness :
  unsat_sound Enum.check /\
  0 < 8 /\
  check_solution Enum.check (Bound (Some (cand 313 265))) (cand 1 0)
    (9 + 2 ^ 8) 8 = Return (true, [PrintCorrect (cand 1 0)]) /\
  [PrintCorrect (cand 1 0)] = [PrintCorrect (cand 1 0)] /\
  (9 + 2 ^ 8) mod 2 ^ 8 <> 0 /\
  forall x, 0 <= x < 2 ^ 8 ->
    x / ((9 + 2 ^ 8) mod 2 ^ 8) =
    computed 8 (multiplier (cand 313 265) mod 2 ^ 8)
             (shift (cand 313 265) mod 2 ^ 8) x.
Proof.
  assert (Hs : unsat_sound Enum.check) by apply EnumFacts.check_unsat_sound.
  assert (Hb : 0 < 8) by lia.
  assert (Hr : check_solution Enum.check (Bound (Some (cand 313 265)))
                 (cand 1 0) (9 + 2 ^ 8) 8 =
               Return (true, [PrintCorrect (cand 1 0)]))
    by (vm_compute; reflexivity).
  split; [exact Hs|]. split; [exact Hb|]. split; [exact Hr|].
  exact (accepted_bound_solution_divides Enum.check _ _ _ 8 _ Hs Hb Hr).
Defined.

(** X2.  When [check_solution] prints a counterexample [x] with a solver
    whose [sat] answers are sound, it returns [False], [x] is a value of
    the width, the printed expected value is [x // divisor], [divisor] is
    not zero and the shift of [sol] is not negative, and the query's
    quotient of [x] by the divisor (all ones when the divisor is zero as
    a value of the width) differs from what the dictionary bound to
    [solution] computes on [x]. *)
Theorem reported_counterexample_is_genuine
  (check : Solver -> CheckSatResult) (c sol : Candidate)
  (divisor bits : Z) (b : bool) (x e d : Z) :
  sat_sound check ->
  0 < bits ->
  check_solution check (Bound (Some c)) sol divisor bits =
    Return (b, [PrintCounterExample x e d]) ->
  b = false /\
  0 <= x < 2 ^ bits /\
  e = x / divisor /\
  divisor <> 0 /\
  0 <= shift sol /\
  (if divisor mod 2 ^ bits =? 0 then 2 ^ bits - 1
   else x / (divisor mod 2 ^ bits)) <>
  computed bits (multiplier c mod 2 ^ bits) (shift c mod 2 ^ bits) x.
Proof.
  intros Hsound Hb. unfold check_solution.
  destruct (check _) as [m| |] eqn:E; try discriminate.
  destruct (shift sol <? 0) eqn:Es; [discriminate|].
  destruct (divisor =? 0) eqn:Ed; [discriminate|].
  intros [= <- <- <- <-].
  apply Z.ltb_ge in Es. apply Z.eqb_neq in Ed.
  apply Hsound in E.
  rewrite negated_equation_wrapped, eval_quotient in E.
  apply negb_true_iff, Z.eqb_neq in E.
  split; [reflexivity|].
  split; [apply eval_BitVec_range; lia|].
  repeat split; assumption.
Qed.

Lemma reported_counterexample_is_genuine_witness :
  sat_sound Enum.check /\
  0 < 8 /\
  check_solution Enum.check (Bound (Some (cand 1 0))) (cand 1 0) 9 8 =
    Return (false, [PrintCounterExample 1 0 1]) /\
  false = false /\
  0 <= 1 < 2 ^ 8 /\
  0 = 1 / 9 /\
  9 <> 0 /\
  0 <= shift (cand 1 0) /\
  (if 9 mod 2 ^ 8 =? 0 then 2 ^ 8 - 1 else 1 / (9 mod 2 ^ 8)) <>
  computed 8 (multiplier (cand 1 0) mod 2 ^ 8)
           (shift (cand 1 0) mod 2 ^ 8) 1.
Proof.
  assert (Hs : sat_sound Enum.check) by apply EnumFacts.check_sat_sound.
  assert (Hb : 0 < 8) by lia.
  assert (Hr : check_solution Enum.check (Bound (Some (cand 1 0)))
                 (cand 1 0) 9 8 =
               Return (false, [PrintCounterExample 1 0 1]))
    by (vm_compute; reflexivity).
  split; [exact Hs|]. split; [exact Hb|]. split; [exact Hr|].
  exact (reported_counterexample_is_genuine Enum.check _ _ 9 8 _ _ _ _
           Hs Hb Hr).
Defined.

(** X4.  A candidate returned by [find_constants], bound to [solution]
    and passed to [check_solution] for the same divisor and width as
    [__main__] does, is never refuted and raises nothing: with solvers
    whose [sat] answers are sound the verifier either returns [True] with
    the "correct" line or returns [False] with the timeout line. *)
Theorem found_candidate_verifies
  (check check' : Solver -> CheckSatResult) (div bits : Z)
  (range : option (Z * Z)) (c : Candidate) :
  sat_sound check ->
  sat_sound check' ->
  0 < bits ->
  fst (find_constants check div bits range) = Some c ->
  check_solution check' (Bound (Some c)) c div bits =
    Return (true, [PrintCorrect c]) \/
  check_solution check' (Bound (Some c)) c div bits =
    Return (false, [PrintTimeout]).
Proof.
  intros Hsound Hsound' Hb Hfind.
  apply find_constants_answer in Hfind as [m [Hsat [Ha Hs]]].
  apply Hsound in Hsat.
  apply formula_wrapped in Hsat as [Hdiv [Hsh [_ Hall]]]; [|assumption].
  rewrite <- Ha, <- Hs in Hall. rewrite <- Hs in Hsh.
  assert (Har : 0 <= multiplier c < 2 ^ bits)
    by (rewrite Ha; apply eval_BitVec_range; lia).
  pose proof (two_bits_le_pow bits Hb) as Hle.
  unfold check_solution.
  destruct (check' _) as [m'| |] eqn:E; [|now left|now right].
  exfalso. apply Hsound' in E.
  rewrite negated_equation_wrapped, eval_quotient in E.
  rewrite (mod_small_id bits (multiplier c)),
    (mod_small_id bits (shift c)) in E by lia.
  replace (div mod 2 ^ bits =? 0) with false in E
    by (symmetry; now apply Z.eqb_neq).
  apply negb_true_iff, Z.eqb_neq in E. apply E, Hall.
  apply eval_BitVec_range. lia.
Qed.

Lemma found_candidate_verifies_witness :
  sat_sound Enum.check /\
  0 < 5 /\
  fst (find_constants Enum.check 3 5 None) = Some (cand 11 5) /\
  (check_solution Enum.check (Bound (Some (cand 11 5))) (cand 11 5) 3 5 =
     Return (true, [PrintCorrect (cand 11 5)]) \/
   check_solution Enum.check (Bound (Some (cand 11 5))) (cand 11 5) 3 5 =
     Return (false, [PrintTimeout])).
Proof.
  assert (Hs : sat_sound Enum.check) by apply EnumFacts.check_sat_sound.
  assert (Hb : 0 < 5) by lia.
  assert (Hf : fst (find_constants Enum.check 3 5 None) = Some (cand 11 5))
    by (vm_compute; reflexivity).
  split; [exact Hs|]. split; [exact Hb|]. split; [exact Hf|].
  exact (found_candidate_verifies Enum.check Enum.check 3 5 None _
           Hs Hs Hb Hf).
Defined.

End Verifier.

(* ================================================================== *)
(** ** What the search returns *)
(* ================================================================== *)

Module Search.
Import Z3 Z3Facts Inv Queries ScriptFacts Wrapped Scenario Samples.

(** X3.  A candidate returned by [find_constants] with a solver whose
    [sat] answers are sound: the divisor is not zero as a value of the
    width, the multiplier is a value of the width, the shift lies in
    [[0, 2 * bits)], the multiplier lies in the given range (bounds read
    modulo [2 ^ bits]), and multiplying and shifting gives the quotient
    by [div mod 2 ^ bits] on every value of the width. *)
Theorem find_constants_candidate
  (check : Solver -> CheckSatResult) (div bits : Z)
  (range : option (Z * Z)) (c : Candidate) :
  sat_sound check ->
  0 < bits ->
  fst (find_constants check div bits range) = Some c ->
  div mod 2 ^ bits <> 0 /\
  0 <= multiplier c < 2 ^ bits /\
  0 <= shift c < 2 * bits /\
  (forall r, range = Some r ->
     fst r mod 2 ^ bits <= multiplier c < snd r mod 2 ^ bits) /\
  (forall x, 0 <= x < 2 ^ bits ->
     x / (div mod 2 ^ bits) = computed bits (multiplier c) (shift c) x).
Proof.
  intros Hsound Hb Hfind.
  apply find_constants_answer in Hfind as [m [Hsat [-> ->]]].
  apply Hsound in Hsat.
  apply formula_wrapped in Hsat as [Hdiv [Hsh [Hr Hall]]]; [|assumption].
  split; [exact Hdiv|].
  split; [apply eval_BitVec_range; lia|].
  split; [exact Hsh|]. split; [exact Hr | exact Hall].
Qed.

Lemma find_constants_candidate_witness :
  sat_sound Enum.check /\
  0 < 5 /\
  fst (find_constants Enum.check 35 5 (Some (8, 16))) = Some (cand 11 5) /\
  35 mod 2 ^ 5 <> 0 /\
  0 <= multiplier (cand 11 5) < 2 ^ 5 /\
  0 <= shift (cand 11 5) < 2 * 5 /\
  (forall r, Some (8, 16) = Some r ->
     fst r mod 2 ^ 5 <= multiplier (cand 11 5) < snd r mod 2 ^ 5) /\
  (forall x, 0 <= x < 2 ^ 5 ->
     x / (35 mod 2 ^ 5) =
     computed 5 (multiplier (cand 11 5)) (shift (cand 11 5)) x).
Proof.
  assert (Hs : sat_sound Enum.check) by apply EnumFacts.check_sat_sound.
  assert (Hb : 0 < 5) by lia.
  assert (Hf : fst (find_constants Enum.check 35 5 (Some (8, 16))) =
               Some (cand 11 5)) by (vm_compute; reflexivity).
  split; [exact Hs|]. split; [exact Hb|]. split; [exact Hf|].
  exact (find_constants_candidate Enum.check 35 5 _ _ Hs Hb Hf).
Defined.

(** X7.  On widths of 1 to 4 bits [find_constants] returns [None] and
    prints nothing, whatever the divisor and the range, with every solver
    whose [sat] answers are sound. *)
Theorem find_constants_narrow_width
  (check : Solver -> CheckSatResult) (div bits : Z)
  (range : option (Z * Z)) :
  sat_sound check ->
  0 < bits < 5 ->
  find_constants check div bits range = (None, []).
Proof.
  intros Hsound Hb. unfold find_constants.
  destruct (check _) as [m| |] eqn:E; try reflexivity.
  exfalso. apply Hsound in E. unfold formula in E.
  apply satisfies_add in E as [E _].
  assert (Hsb : satisfies m (shift_bounds bits) = true).
  { destruct range as [[min_a max_a]|]; [|exact E].
    apply satisfies_add in E as [E _].
    now apply satisfies_add in E as [E _]. }
  rewrite shift_bounds_unsat_small in Hsb by assumption. discriminate.
Qed.

Lemma find_constants_narrow_width_witness :
  sat_sound Enum.check /\
  0 < 4 < 5 /\
  find_constants Enum.check 3 4 None = (None, []).
Proof.
  assert (Hs : sat_sound Enum.check) by apply EnumFacts.check_sat_sound.
  assert (Hb : 0 < 4 < 5) by lia.
  split; [exact Hs|]. split; [exact Hb|].
  exact (find_constants_narrow_width Enum.check 3 4 None Hs Hb).
Defined.

(** The candidate found for the [i]-th range comes from a range before
    the last one and lies between its bounds. *)
Lemma range_candidate (check : Solver -> CheckSatResult)
  (div bits cpus : Z) (i : nat) (c : Candidate) :
  sat_sound check ->
  0 < bits ->
  1 <= cpus ->
  fst (find_constants check div bits
         (Some (Z.of_nat i * (2 ^ bits / (1024 * cpus)),
                if Z.of_nat i <? 1024 * cpus - 1
                then (Z.of_nat i + 1) * (2 ^ bits / (1024 * cpus))
                else 2 ^ bits))) = Some c ->
  Z.of_nat i < 1024 * cpus - 1 /\
  Z.of_nat i * (2 ^ bits / (1024 * cpus)) <= multiplier c
    < (Z.of_nat i + 1) * (2 ^ bits / (1024 * cpus)).
Proof.
  intros Hsound Hb Hc Hfind.
  apply find_constants_in_range in Hfind; try assumption.
  pose proof (pow2_pos bits ltac:(lia)) as HM.
  set (p := 2 ^ bits / (1024 * cpus)) in *.
  assert (Hp : 0 <= p) by (apply Z.div_pos; lia).
  assert (Hnp : 1024 * cpus * p <= 2 ^ bits)
    by (apply Z.mul_div_le; lia).
  pose proof (Z.mod_pos_bound (Z.of_nat i * p) (2 ^ bits) HM) as Hlo.
  destruct (Z.of_nat i <? 1024 * cpus - 1) eqn:E.
  - apply Z.ltb_lt in E. split; [assumption|].
    assert (Hcase : p = 0 \/ 0 < p) by lia.
    destruct Hcase as [H0|Hpos].
    + rewrite H0, !Z.mul_0_r in Hfind. lia.
    + rewrite !Z.mod_small in Hfind by nia. exact Hfind.
  - rewrite Z.mod_same in Hfind by lia. lia.
Qed.

Lemma filter_truthy_sorted (F : nat -> option Candidate) (p : Z) :
  0 <= p ->
  (forall i c, F i = Some c ->
     Z.of_nat i * p <= multiplier c < (Z.of_nat i + 1) * p) ->
  forall len start,
    StronglySorted (fun c c' => multiplier c < multiplier c')
      (filter_truthy (map F (seq start len))).
Proof.
  intros Hp HF len. induction len as [|len IH]; intros start.
  - constructor.
  - cbn [seq map filter_truthy].
    destruct (F start) as [c|] eqn:E; [|apply IH].
    constructor; [apply IH|].
    apply Forall_forall. intros c' Hin.
    apply In_filter_truthy, in_map_iff in Hin as [j [Hj Hin]].
    apply in_seq in Hin. apply HF in E. apply HF in Hj. nia.
Qed.

(** The body of [find_parallel], once the worker count is known to be
    positive. *)
Lemma find_parallel_returns (check : Solver -> CheckSatResult)
  (cpu_count div bits : Z) (cpus : option Z) (cs : list Candidate) :
  find_parallel check cpu_count div bits cpus = Return cs ->
  let n := match cpus with None => cpu_count | Some k => k end in
  1 <= n /\
  cs = filter_truthy
         (map (fun i : nat =>
                 fst (find_constants check div bits
                        (Some (Z.of_nat i * (2 ^ bits / (1024 * n)),
                               if Z.of_nat i <? 1024 * n - 1
                               then (Z.of_nat i + 1) * (2 ^ bits / (1024 * n))
                               else 2 ^ bits))))
              (seq 0 (Z.to_nat (1024 * n)))).
Proof.
  intros Hret n. unfold find_parallel in Hret. cbv zeta in Hret.
  fold n in Hret.
  destruct (1024 * n =? 0); [discriminate|].
  destruct (n <? 1) eqn:E; [discriminate|].
  apply Z.ltb_ge in E. injection Hret as <-.
  split; [assumption|]. unfold search_ranges. now rewrite map_map.
Qed.

(** X5.  With a solver whose [sat] answers are sound, the list returned
    by [find_parallel] has strictly increasing multipliers, hence no
    candidate twice, and every multiplier is below the start of the last
    range, [(part_num - 1) * part_size]: the last range contributes
    nothing. *)
Theorem find_parallel_multipliers_increasing
  (check : Solver -> CheckSatResult) (cpu_count div bits : Z)
  (cpus : option Z) (cs : list Candidate) :
  sat_sound check ->
  0 < bits ->
  find_parallel check cpu_count div bits cpus = Return cs ->
  let n := match cpus with None => cpu_count | Some k => k end in
  StronglySorted (fun c c' => multiplier c < multiplier c') cs /\
  (forall c, In c cs ->
     0 <= multiplier c < (1024 * n - 1) * (2 ^ bits / (1024 * n))).
Proof.
  intros Hsound Hb Hret n.
  apply find_parallel_returns in Hret as [Hn ->]. fold n.
  assert (Hp : 0 <= 2 ^ bits / (1024 * n)).
  { apply Z.div_pos; [|lia]. pose proof (pow2_pos bits); lia. }
  split.
  - apply filter_truthy_sorted with (p := 2 ^ bits / (1024 * n));
      [assumption|].
    intros i c Hi. now apply range_candidate in Hi.
  - intros c Hin.
    apply In_filter_truthy, in_map_iff in Hin as [i [Hi _]].
    apply range_candidate in Hi as [Hlt Hr]; try assumption. nia.
Qed.

Lemma find_parallel_multipliers_increasing_witness :
  sat_sound (Enum.check_hints_only [a683_s11]) /\
  0 < 10 /\
  find_parallel (Enum.check_hints_only [a683_s11]) 4 3 10 (Some 1) =
    Return [cand 683 11] /\
  StronglySorted (fun c c' => multiplier c < multiplier c') [cand 683 11] /\
  (forall c, In c [cand 683 11] ->
     0 <= multiplier c < (1024 * 1 - 1) * (2 ^ 10 / (1024 * 1))).
Proof.
  assert (Hs : sat_sound (Enum.check_hints_only [a683_s11]))
    by apply EnumFacts.check_hints_only_sat_sound.
  assert (Hb : 0 < 10) by lia.
  assert (Hr : find_parallel (Enum.check_hints_only [a683_s11]) 4 3 10
                 (Some 1) = Return [cand 683 11])
    by (vm_compute; reflexivity).
  split; [exact Hs|]. split; [exact Hb|]. split; [exact Hr|].
  exact (find_parallel_multipliers_increasing _ 4 3 10 (Some 1) _
           Hs Hb Hr).
Defined.

(** X6.  When the domain has fewer values than there are ranges,
    [2 ^ bits < 1024 * cpus], every range but the last is empty and
    [find_parallel] returns the empty list with every solver whose [sat]
    answers are sound. *)
Theorem find_parallel_small_domain_empty
  (check : Solver -> CheckSatResult) (cpu_count div bits : Z)
  (cpus : option Z) (cs : list Candidate) :
  sat_sound check ->
  0 < bits ->
  2 ^ bits < 1024 * match cpus with None => cpu_count | Some k => k end ->
  find_parallel check cpu_count div bits cpus = Return cs ->
  cs = [].
Proof.
  intros Hsound Hb Hsmall Hret.
  apply find_parallel_returns in Hret as [Hn Hcs].
  destruct cs as [|c cs]; [reflexivity|]. exfalso.
  assert (Hin : In c (c :: cs)) by now left.
  rewrite Hcs in Hin.
  apply In_filter_truthy, in_map_iff in Hin as [i [Hi _]].
  apply range_candidate in Hi as [_ Hr]; try assumption.
  rewrite Z.div_small in Hr by (pose proof (pow2_pos bits); lia). lia.
Qed.

Lemma find_parallel_small_domain_empty_witness :
  sat_sound (Enum.check_hints_only [a11_s5]) /\
  0 < 5 /\
  2 ^ 5 < 1024 * 1 /\
  find_parallel (Enum.check_hints_only [a11_s5]) 4 3 5 (Some 1) =
    Return [] /\
  fst (find_constants (Enum.check_hints_only [a11_s5]) 3 5 None) =
    Some (cand 11 5) /\
  @nil Candidate = [].
Proof.
  assert (Hs : sat_sound (Enum.check_hints_only [a11_s5]))
    by apply EnumFacts.check_hints_only_sat_sound.
  assert (Hb : 0 < 5) by lia.
  assert (Hd : 2 ^ 5 < 1024 * 1) by (cbn; lia).
  assert (Hr : find_parallel (Enum.check_hints_only [a11_s5]) 4 3 5
                 (Some 1) = Return []) by (vm_compute; reflexivity).
  split; [exact Hs|]. split; [exact Hb|]. split; [exact Hd|].
  split; [exact Hr|]. split; [vm_compute; reflexivity|].
  exact (find_parallel_small_domain_empty _ 4 3 5 (Some 1) _ Hs Hb Hd Hr).
Defined.

End Search.

(* ================================================================== *)
(** ** The fast path and the main block *)
(* ================================================================== *)

Module FastPath.
Import Z3 Z3Facts Inv Queries ScriptFacts Wrapped Scenario.

(** A candidate of [simple] comes from a model of its equation. *)
Lemma simple_answer (check : Solver -> CheckSatResult) (div bits : Z)
  (c : Candidate) (out : list Line) :
  sat_sound check ->
  0 < bits ->
  simple check div bits = Return (Some c, out) ->
  div <> 0 /\
  shift c = 0 /\
  0 <= multiplier c < 2 ^ bits /\
  (multiplier c * (19088743 * div)) mod 2 ^ bits = 19088743 mod 2 ^ bits.
Proof.
  intros Hsound Hb. unfold simple.
  destruct (div =? 0) eqn:Ediv; [discriminate|].
  apply Z.eqb_neq in Ediv.
  destruct (check _) as [m| |] eqn:E; try discriminate.
  intros [= <- _]. cbn [shift multiplier].
  apply Hsound in E. unfold satisfies, add in E.
  cbn [app all holds eval size] in E.
  destruct (_ =? _) eqn:Eq in E; [|discriminate].
  apply Z.eqb_eq in Eq.
  rewrite Z.div_mul in Eq by assumption.
  pose proof (pow2_pos bits ltac:(lia)) as Hp.
  rewrite Z.mul_mod_idemp_l in Eq by lia.
  split; [assumption|]. split; [reflexivity|].
  split; [apply eval_BitVec_range; lia|].
  unfold as_long. cbn [eval]. rewrite Z.mul_comm. exact Eq.
Qed.

Lemma mod_pow2_parity (bits a : Z) :
  0 < bits -> (a mod 2 ^ bits) mod 2 = a mod 2.
Proof.
  intros Hb. apply Z.mod_mod_divide.
  exists (2 ^ (bits - 1)).
  replace bits with (Z.succ (bits - 1)) at 1 by lia.
  rewrite Z.pow_succ_r by lia. lia.
Qed.

Lemma coprime_pow2_constant (bits : Z) :
  0 <= bits -> Z.gcd (2 ^ bits) 19088743 = 1.
Proof.
  intros Hb. apply Z.coprime_pow_l; [assumption | reflexivity].
Qed.

(** X8.  For an even divisor other than zero [simple] finds nothing: with
    a solver whose [sat] answers are sound it returns [None] and prints
    the solver's answer, [unsat] or [unknown]. *)
Theorem simple_even_divisor_finds_nothing
  (check : Solver -> CheckSatResult) (div bits : Z) :
  sat_sound check ->
  0 < bits ->
  div <> 0 ->
  Z.even div = true ->
  simple check div bits = Return (None, [PrintUnsat]) \/
  simple check div bits = Return (None, [PrintUnknown]).
Proof.
  intros Hsound Hb Hdiv Heven.
  destruct (simple check div bits) as [[[c|] out]|e] eqn:E.
  - exfalso.
    apply simple_answer in E as [_ [_ [_ Heq]]]; try assumption.
    apply (f_equal (fun z => z mod 2)) in Heq.
    rewrite !mod_pow2_parity in Heq by assumption.
    rewrite !Zmod_odd, !Z.odd_mul in Heq.
    assert (Hodd : Z.odd div = false)
      by (rewrite <- Z.negb_even, Heven; reflexivity).
    rewrite Hodd, !andb_false_r in Heq. discriminate.
  - unfold simple in E.
    destruct (div =? 0); [discriminate|].
    destruct (check _); try discriminate; injection E as <-; auto.
  - unfold simple in E.
    destruct (div =? 0) eqn:Ed; [apply Z.eqb_eq in Ed; contradiction|].
    destruct (check _); discriminate.
Qed.

Lemma simple_even_divisor_finds_nothing_witness :
  sat_sound Enum.check /\
  0 < 8 /\
  10 <> 0 /\
  Z.even 10 = true /\
  (simple Enum.check 10 8 = Return (None, [PrintUnsat]) \/
   simple Enum.check 10 8 = Return (None, [PrintUnknown])).
Proof.
  assert (Hs : sat_sound Enum.check) by apply EnumFacts.check_sat_sound.
  assert (Hb : 0 < 8) by lia.
  assert (Hd : 10 <> 0) by lia.
  assert (He : Z.even 10 = true) by reflexivity.
  split; [exact Hs|]. split; [exact Hb|]. split; [exact Hd|].
  split; [exact He|].
  exact (simple_even_divisor_finds_nothing Enum.check 10 8 Hs Hb Hd He).
Defined.

(** X9.  A candidate returned by [simple] with a solver whose [sat]
    answers are sound exists for an odd divisor only, its multiplier is
    the inverse of the divisor modulo [2 ^ bits], and multiplying any
    multiple [q * div] by it gives back [q] modulo [2 ^ bits]: exact
    division by multiplication. *)
Theorem simple_multiplier_inverts_divisor
  (check : Solver -> CheckSatResult) (div bits : Z)
  (c : Candidate) (out : list Line) :
  sat_sound check ->
  0 < bits ->
  simple check div bits = Return (Some c, out) ->
  Z.odd div = true /\
  (multiplier c * div) mod 2 ^ bits = 1 /\
  (forall q, (q * div * multiplier c) mod 2 ^ bits = q mod 2 ^ bits).
Proof.
  intros Hsound Hb Hret.
  apply simple_answer in Hret as [Hdiv [_ [Hm Heq]]]; try assumption.
  pose proof (pow2_ge_2 bits Hb) as Hp.
  assert (Hinv : (multiplier c * div) mod 2 ^ bits = 1).
  { rewrite <- (Z.mod_small 1 (2 ^ bits)) by lia.
    apply Z.cong_iff_0.
    apply Z.cong_iff_0 in Heq.
    apply Z.mod_divide in Heq; [|lia].
    apply Z.mod_divide; [lia|].
    apply Z.gauss with (m := 19088743);
      [|apply coprime_pow2_constant; lia].
    replace (19088743 * (multiplier c * div - 1))
      with (multiplier c * (19088743 * div) - 19088743) by ring.
    exact Heq. }
  split; [|split; [exact Hinv|]].
  - pose proof (mod_pow2_parity bits (multiplier c * div) Hb) as Hpar.
    rewrite Hinv in Hpar.
    rewrite (Zmod_odd (multiplier c * div)), Z.odd_mul in Hpar.
    destruct (Z.odd div); [reflexivity|].
    rewrite andb_false_r in Hpar. discriminate.
  - intros q.
    replace (q * div * multiplier c) with (q * (multiplier c * div)) by ring.
    rewrite <- Z.mul_mod_idemp_r, Hinv by lia. now rewrite Z.mul_1_r.
Qed.

Lemma simple_multiplier_inverts_divisor_witness :
  sat_sound Enum.check /\
  0 < 8 /\
  simple Enum.check 9 8 = Return (Some (cand 57 0), [PrintHex 57]) /\
  Z.odd 9 = true /\
  (multiplier (cand 57 0) * 9) mod 2 ^ 8 = 1 /\
  (forall q, (q * 9 * multiplier (cand 57 0)) mod 2 ^ 8 = q mod 2 ^ 8).
Proof.
  assert (Hs : sat_sound Enum.check) by apply EnumFacts.check_sat_sound.
  assert (Hb : 0 < 8) by lia.
  assert (Hr : simple Enum.check 9 8 =
               Return (Some (cand 57 0), [PrintHex 57]))
    by (vm_compute; reflexivity).
  split; [exact Hs|]. split; [exact Hb|]. split; [exact Hr|].
  exact (simple_multiplier_inverts_divisor Enum.check 9 8 _ _ Hs Hb Hr).
Defined.

End FastPath.

Module MainOutcomes.
Import Z3 Z3Facts Inv Queries ScriptFacts Wrapped.

(** X10.  With a solver whose answers are sound, the [__main__] block
    never raises and never prints a counterexample: it prints nothing
    (no candidate found), or the model followed by "correct" for the
    candidate, or the model followed by the timeout line; in both of the
    latter the candidate has a 32-bit multiplier, a shift below 64, and
    divides by 9 correctly on every 32-bit value. *)
Theorem main_outcomes (check : Solver -> CheckSatResult) :
  sat_sound check ->
  unsat_sound check ->
  main check = Return [] \/
  exists c : Candidate,
    (main check =
       Return [PrintModel (multiplier c) (shift c); PrintCorrect c] \/
     main check =
       Return [PrintModel (multiplier c) (shift c); PrintTimeout]) /\
    0 <= multiplier c < 2 ^ 32 /\
    0 <= shift c < 64 /\
    forall x, 0 <= x < 2 ^ 32 ->
      x / 9 = computed 32 (multiplier c) (shift c) x.
Proof.
  intros Hsat Hunsat. unfold main.
  destruct (find_constants check 9 32 None) as [[c|] out] eqn:Efind.
  - right. exists c.
    assert (Hf : fst (find_constants check 9 32 None) = Some c)
      by now rewrite Efind.
    pose proof (find_constants_sound check 9 32 None c Hsat
                  ltac:(lia) ltac:(cbn; lia) Hf) as [Ha [Hs [Hall _]]].
    assert (Hout : out = [PrintModel (multiplier c) (shift c)]).
    { unfold find_constants in Efind.
      destruct (check (formula 9 32 None)); try discriminate.
      now injection Efind as <- <-. }
    subst out.
    split; [|split; [exact Ha|split; [lia|exact Hall]]].
    unfold check_solution.
    destruct (check (negated_equation c 9 32)) as [m| |] eqn:E.
    + exfalso. apply Hsat in E.
      rewrite negated_equation_reads in E by (cbn in *; lia).
      apply negb_true_iff, Z.eqb_neq in E. apply E, Hall.
      apply eval_BitVec_range. lia.
    + now left.
    + now right.
  - left. unfold find_constants in Efind.
    destruct (check (formula 9 32 None)); try discriminate.
    + now injection Efind as <-.
    + now injection Efind as <-.
Qed.

Lemma main_outcomes_witness :
  sat_sound Enum.check /\
  unsat_sound Enum.check /\
  (main Enum.check = Return [] \/
   exists c : Candidate,
     (main Enum.check =
        Return [PrintModel (multiplier c) (shift c); PrintCorrect c] \/
      main Enum.check =
        Return [PrintModel (multiplier c) (shift c); PrintTimeout]) /\
     0 <= multiplier c < 2 ^ 32 /\
     0 <= shift c < 64 /\
     forall x, 0 <= x < 2 ^ 32 ->
       x / 9 = computed 32 (multiplier c) (shift c) x).
Proof.
  assert (Hs : sat_sound Enum.check) by apply EnumFacts.check_sat_sound.
  assert (Hu : unsat_sound Enum.check) by apply EnumFacts.check_unsat_sound.
  split; [exact Hs|]. split; [exact Hu|].
  exact (main_outcomes Enum.check Hs Hu).
Defined.

End MainOutcomes.
